(** * frederi-sync: the iOS-contact to Notion upsert service

    A shallow embedding of [src/auth.ts] (the [protect] middleware) and of
    the Hono application that follows it in the same source file (the error
    translator, the [/public] route and the [POST /ios-contact] route with
    its zod schema), together with the properties of the service.

    - JavaScript values that may be [undefined] are [option]s.
    - A JavaScript object literal used as a property bag is a [gmap].
    - The Notion client is an external collaborator: the handler is a
      program over its three calls, and it is run against an arbitrary
      client with an arbitrary state. *)

From Stdlib Require Import Ascii String List ZArith NArith Bool.
From stdpp Require Import base option list strings pretty gmap fin_maps.

Set Warnings "-register-all".

Local Open Scope string_scope.
Local Open Scope list_scope.

(** ** JSON request bodies *)

(** The value produced by parsing the request body.  Numbers only matter
    here as "not a string, not an object, not an array". *)
Inductive json : Type :=
| JNull
| JBool (b : bool)
| JNumber (n : Z)
| JString (s : string)
| JArray (items : list json)
| JObject (fields : list (string * json)).

(** [o.k] on a parsed object: [None] is JavaScript's [undefined]. *)
Fixpoint field (o : list (string * json)) (k : string) : option json :=
  match o with
  | [] => None
  | (k', v) :: o' => if String.eqb k' k then Some v else field o' k
  end.

(** ** The validated payload (the type zod infers from the schema) *)

Module Email.
Record t : Type := { email : string; label : string }.
End Email.

Module Address.
Record t : Type :=
  { city : option string;
    street : option string;
    country : option string;
    zip : option string;
    state : option string;
    label : option string }.
End Address.

Module Phone.
Record t : Type := { label : string; number : string }.
End Phone.

Record Contact : Type :=
  { firstName : option string;
    organization : option string;
    lastName : string;
    emails : option (list Email.t);
    addresses : option (list (option Address.t));
    phones : option (list Phone.t);
    note : option string;
    website : option string;
    jobTitle : option string;
    source : string }.

(** ** zod, as far as the schema uses it

    A schema for [A] maps a possibly-undefined input to [Some] parsed value
    or to [None] when [safeParse] reports failure. *)

Definition ZodType (A : Type) : Type := option json -> option A.

Definition z_string : ZodType string :=
  fun v => match v with Some (JString s) => Some s | _ => None end.

Definition z_optional {A} (inner : ZodType A) : ZodType (option A) :=
  fun v => match v with None => Some None | Some _ => Some <$> inner v end.

Definition z_array {A} (element : ZodType A) : ZodType (list A) :=
  fun v =>
    match v with
    | Some (JArray items) => mapM (fun item => element (Some item)) items
    | _ => None
    end.

Definition z_enum (values : list string) : ZodType string :=
  fun v =>
    match v with
    | Some (JString s) => if existsb (String.eqb s) values then Some s else None
    | _ => None
    end.

(** [inner.default(d)]: an undefined input is replaced by [d] before
    [inner] parses it; the inferred type drops [undefined], which is sound
    because [inner] never sees an undefined input. *)
Definition z_default {A} (inner : ZodType (option A)) (d : json) : ZodType A :=
  fun v => mjoin (inner (Some (default d v))).

(** [z.object({...})]: the input must be an object; its shape is read
    field by field. *)
Definition z_object {A} (shape : list (string * json) -> option A) : ZodType A :=
  fun v => match v with Some (JObject o) => shape o | _ => None end.

Section Schema.

(** [z.string().email()]'s syntax check belongs to the zod library. *)
Variable is_email : string -> bool.

Definition z_string_email : ZodType string :=
  fun v => s ← z_string v; if is_email s then Some s else None.

Definition emailSchema : ZodType Email.t :=
  z_object (fun o =>
    email ← z_string_email (field o "email");
    label ← z_string (field o "label");
    Some {| Email.email := email; Email.label := label |}).

Definition addressSchema : ZodType Address.t :=
  z_object (fun o =>
    city ← z_optional z_string (field o "city");
    street ← z_optional z_string (field o "street");
    country ← z_optional z_string (field o "country");
    zip ← z_optional z_string (field o "zip");
    state ← z_optional z_string (field o "state");
    label ← z_optional z_string (field o "label");
    Some {| Address.city := city; Address.street := street;
            Address.country := country; Address.zip := zip;
            Address.state := state; Address.label := label |}).

Definition phoneSchema : ZodType Phone.t :=
  z_object (fun o =>
    label ← z_string (field o "label");
    number ← z_string (field o "number");
    Some {| Phone.label := label; Phone.number := number |}).

Definition contactSchema : ZodType Contact :=
  z_object (fun o =>
    firstName ← z_optional z_string (field o "firstName");
    organization ← z_optional z_string (field o "organization");
    lastName ← z_string (field o "lastName");
    emails ← z_optional (z_array emailSchema) (field o "emails");
    addresses ← z_optional (z_array (z_optional addressSchema)) (field o "addresses");
    phones ← z_optional (z_array phoneSchema) (field o "phones");
    note ← z_optional z_string (field o "note");
    website ← z_optional z_string (field o "website");
    jobTitle ← z_optional z_string (field o "jobTitle");
    source ← z_default (z_optional (z_enum ["ios-contact"])) (JString "ios-contact")
               (field o "source");
    Some {| firstName := firstName; organization := organization;
            lastName := lastName; emails := emails; addresses := addresses;
            phones := phones; note := note; website := website;
            jobTitle := jobTitle; source := source |}).

(** The schema handed to [zValidator]: [z.object({...}).array()]. *)
Definition schema : ZodType (list Contact) := z_array contactSchema.

End Schema.

(** ** JavaScript truthiness and the [x && {...}] spread idiom *)

Class Truthy (A : Type) : Type := truthy : A -> bool.

(** A string is truthy unless it is empty; an object is always truthy. *)
#[export] Instance string_truthy : Truthy string := fun s => negb (String.eqb s "").
#[export] Instance phone_truthy : Truthy Phone.t := fun _ => true.
#[export] Instance address_truthy : Truthy Address.t := fun _ => true.

(** [arr?.filter(p)[0]]: undefined when [arr] is, else the first element of
    the filtered array (undefined when that array is empty). *)
Definition filter0 {A} (p : A -> bool) (arr : option (list A)) : option A :=
  l ← arr; head (List.filter p l).

(** ** What is sent to and received from Notion *)

Inductive PropertyValue : Type :=
| PTitle (content : string)
| PRichText (content : string)
| PEmail (address : string)
| PPhoneNumber (phone_number : string)
| PUrl (url : string)
| PRelation (ids : list (option string))
| PSelect (name : string).

(** [...(x && obj)] inside an object literal: contributes [obj] when [x] is
    truthy and nothing otherwise ([obj] receives the defined value). *)
Definition js_and {A} `{Truthy A} (x : option A) (obj : A -> gmap string PropertyValue)
  : gmap string PropertyValue :=
  match x with
  | Some a => if truthy a then obj a else ∅
  | None => ∅
  end.

(** Object literal [{ ...p1, ...p2, ... }]: later parts overwrite earlier. *)
Definition assign (o part : gmap string PropertyValue) : gmap string PropertyValue :=
  part ∪ o.
Definition object_literal (parts : list (gmap string PropertyValue))
  : gmap string PropertyValue := foldl assign ∅ parts.

Inductive PropertyFilter : Type :=
| title_equals (property value : string)
| rich_text_equals (property value : string).

Inductive Filter : Type :=
| Single (f : PropertyFilter)
| And (fs : list PropertyFilter).

Module Page.
Record t : Type := { id : string }.
End Page.

Inductive APIErrorCode : Type :=
| Unauthorized | RestrictedResource | ObjectNotFound | RateLimited
| InvalidJSON | InvalidRequestURL | InvalidRequest | ValidationError
| ConflictError | InternalServerError | ServiceUnavailable.

Inductive ClientErrorCode : Type := RequestTimeout | ResponseError.

(** What can be thrown inside the pipeline: an error of the Notion client
    (the ones [isNotionClientError] recognises), or any other exception. *)
Inductive Error : Type :=
| NotionClientError (code : APIErrorCode + ClientErrorCode) (message : string)
| OtherError (name message : string).

Definition isNotionClientError (error : Error) : bool :=
  match error with NotionClientError _ _ => true | OtherError _ _ => false end.

(** [error.code], which only the Notion client's errors carry. *)
Definition code (error : Error) : option (APIErrorCode + ClientErrorCode) :=
  match error with NotionClientError code _ => Some code | OtherError _ _ => None end.

(** Programs over the Notion client. *)
Inductive Notion (A : Type) : Type :=
| Ret (a : A)
| Throw (e : Error)
| databases_query (database_id : string) (filter : Filter) (k : list Page.t -> Notion A)
| pages_create (database_id : string) (properties : gmap string PropertyValue)
    (k : Page.t -> Notion A)
| pages_update (page_id : string) (properties : gmap string PropertyValue)
    (k : Page.t -> Notion A).
Arguments Ret {A} a.
Arguments Throw {A} e.
Arguments databases_query {A} database_id filter k.
Arguments pages_create {A} database_id properties k.
Arguments pages_update {A} page_id properties k.

Fixpoint bind {A B} (m : Notion A) (f : A -> Notion B) : Notion B :=
  match m with
  | Ret a => f a
  | Throw e => Throw e
  | databases_query d q k => databases_query d q (fun r => bind (k r) f)
  | pages_create d p k => pages_create d p (fun r => bind (k r) f)
  | pages_update i p k => pages_update i p (fun r => bind (k r) f)
  end.

#[export] Instance notion_ret : MRet Notion := @Ret.
#[export] Instance notion_bind : MBind Notion := fun A B f m => bind m f.

(** [await notion.databases.query({...})] and friends. *)
Definition query (database_id : string) (filter : Filter) : Notion (list Page.t) :=
  databases_query database_id filter Ret.
Definition create (database_id : string) (properties : gmap string PropertyValue)
  : Notion Page.t := pages_create database_id properties Ret.
Definition update (page_id : string) (properties : gmap string PropertyValue)
  : Notion Page.t := pages_update page_id properties Ret.

(** The calls a run has issued, in order. *)
Inductive Call : Type :=
| Query (database_id : string) (filter : Filter)
| Create (database_id : string) (properties : gmap string PropertyValue)
| Update (page_id : string) (properties : gmap string PropertyValue).

(** An arbitrary Notion service: each call may fail or answer, and may
    change the service's state. *)
Record Client (S : Type) : Type :=
  { on_query : string -> Filter -> S -> (Error + list Page.t) * S;
    on_create : string -> gmap string PropertyValue -> S -> (Error + Page.t) * S;
    on_update : string -> gmap string PropertyValue -> S -> (Error + Page.t) * S }.
Arguments on_query {S} _ _ _ _.
Arguments on_create {S} _ _ _ _.
Arguments on_update {S} _ _ _ _.

(** Outcome of a run: the calls issued, the value returned or the error
    thrown, and the final state of the service. *)
Definition Outcome (S A : Type) : Type := (list Call * (Error + A) * S)%type.

Definition answer {S A R} (c : Call) (r : (Error + R) * S)
    (continue : R -> S -> Outcome S A) : Outcome S A :=
  match r with
  | (inl e, s) => ([c], inl e, s)
  | (inr x, s) => let '(cs, res, s') := continue x s in (c :: cs, res, s')
  end.

Fixpoint run {S A} (notion : Client S) (m : Notion A) (s : S) : Outcome S A :=
  match m with
  | Ret a => ([], inr a, s)
  | Throw e => ([], inl e, s)
  | databases_query d q k =>
      answer (Query d q) (on_query notion d q s) (fun r => run notion (k r))
  | pages_create d p k =>
      answer (Create d p) (on_create notion d p s) (fun r => run notion (k r))
  | pages_update i p k =>
      answer (Update i p) (on_update notion i p s) (fun r => run notion (k r))
  end.

(** ** HTTP requests and responses *)

(** The request methods Hono has names for, and HEAD, which it answers
    from the GET routes. *)
Inductive Method : Type := GET | POST | HEAD | PUT | DELETE | OPTIONS | PATCH.

Record Request : Type :=
  { method : Method;
    pathname : string;           (* new URL(c.req.url).pathname *)
    authorization : option string; (* c.req.header("Authorization") *)
    body : json }.

(** The argument of [c.json] is kept as the object literal it is given: a
    key whose value is undefined is written out with value [None].
    [NoBody] is the null body of the answer to a HEAD request. *)
Inductive Body : Type :=
| Text (s : string)
| Json (o : list (string * option string))
| SafeParseFailure
| NoBody.

Record Response : Type := { status : nat; body_of : Body }.

Definition c_json (o : list (string * option string)) (status : nat) : Response :=
  {| status := status; body_of := Json o |}.
Definition c_text (s : string) : Response := {| status := 200; body_of := Text s |}.

(** Hono's default answer when no route matches. *)
Definition notFound : Response := {| status := 404; body_of := Text "404 Not Found" |}.

Record Bindings : Type :=
  { NOTION_TOKEN : string;
    PASSWORD : string;
    GOOGLE_API_KEY : string;
    GCP_SERVICE_ACCOUNT : string }.

Record DatabaseIds : Type := { organizations : string; contacts : string }.

(** ** The path the router matches

    [protect] reads [new URL(c.req.url).pathname], which keeps the
    percent-escapes of the URL.  Hono's router matches the path its
    [getPath] extracts, which is that path percent-decoded ([decodeURI],
    with [%25] left alone and undecodable runs left as written). *)

(** The value of a hexadecimal digit: [first] is the digit of value
    [base], [count] digits follow it in the character table. *)
Definition digit_from (first : ascii) (count base : N) (c : ascii) : option N :=
  let offset := (N_of_ascii c - N_of_ascii first)%N in
  if (N_of_ascii first <=? N_of_ascii c)%N && (offset <? count)%N
  then Some (base + offset)%N else None.

Definition hex_value (c : ascii) : option N :=
  digit_from "0" 10 0 c ∪ digit_from "A" 6 10 c ∪ digit_from "a" 6 10 c.

(** The characters [decodeURI] never produces from an escape, and the
    percent sign, whose escape [getPath] protects. *)
Definition kept_escaped (c : ascii) : bool :=
  existsb (Ascii.eqb c) (list_ascii_of_string ";/?:@&=+$,#%").

(** Escapes of ASCII characters are decoded, unless the character is one
    of [kept_escaped].  Every other percent sign is copied: a stray one,
    and the escapes of bytes from 128 on, which the real decoder turns into
    non-ASCII characters or leaves as written.  Either way the result then
    holds a character that no route path of this application has, so the
    routes cannot tell the difference. *)
Fixpoint decode_path (s : string) : string :=
  match s with
  | EmptyString => EmptyString
  | String c rest =>
      if Ascii.eqb c "%"%char then
        match rest with
        | String h (String l rest') =>
            match hex_value h, hex_value l with
            | Some x, Some y =>
                let byte := (16 * x + y)%N in
                if (byte <? 128)%N && negb (kept_escaped (ascii_of_N byte))
                then String (ascii_of_N byte) (decode_path rest')
                else String c (decode_path rest)
            | _, _ => String c (decode_path rest)
            end
        | _ => String c (decode_path rest)
        end
      else String c (decode_path rest)
  end.

Definition getPath (req : Request) : string := decode_path (pathname req).

(** ** auth.ts: the request gate *)

Definition protect (env : Bindings) (req : Request) (next : Notion Response)
  : Notion Response :=
  if String.prefix "/public" (pathname req) then next
  else
    let password := authorization req in
    if negb (bool_decide (password = Some (PASSWORD env)))
    then Ret (c_json [("error", Some "Unauthorized")] 401)
    else next.

(** ** The application *)

Definition onError (error : Error) : Response :=
  let fallthrough := c_json [("message", Some "An error occurred")] 500 in
  if isNotionClientError error then
    match code error with
    | Some (inl Unauthorized) =>
        c_json [("message", Some "Notion responded with an unauthorized error")] 401
    | _ => fallthrough
    end
  else fallthrough.

(** [zValidator("json", schema, hook)]: the hook only logs, so a failed
    parse is answered by the validator itself with status 400, and the
    handler runs only on parsed data. *)
Definition zValidator {A} (schema : ZodType A) (value : json)
    (handler : A -> Notion Response) : Notion Response :=
  match schema (Some value) with
  | Some data => handler data
  | None => Ret {| status := 400; body_of := SafeParseFailure |}
  end.

(** *** The local constants of the [/ios-contact] handler *)

Definition workEmail (c : Contact) : option string :=
  Email.email <$> filter0 (fun email => String.eqb (Email.label email) "Work") (emails c).
Definition homeEmail (c : Contact) : option string :=
  Email.email <$> filter0 (fun email => String.eqb (Email.label email) "Home") (emails c).

Definition mainPhone (c : Contact) : option string :=
  Phone.number <$> filter0 (fun phone => String.eqb (Phone.label phone) "Main") (phones c).
Definition workPhone (c : Contact) : option string :=
  Phone.number <$> filter0 (fun phone => String.eqb (Phone.label phone) "Work") (phones c).
Definition mobilePhone (c : Contact) : option string :=
  Phone.number <$>
    filter0 (fun phone => existsb (String.eqb (Phone.label phone)) ["iPhone"; "Mobile"])
      (phones c).
Definition homePhone (c : Contact) : option Phone.t :=
  filter0 (fun phone => String.eqb (Phone.label phone) "Home") (phones c).

(** [address?.label === l] on a possibly-undefined array element. *)
Definition address_label_is (l : string) (address : option Address.t) : bool :=
  match address ≫= Address.label with
  | Some l' => String.eqb l' l
  | None => false
  end.

Definition workAddressData (c : Contact) : option Address.t :=
  mjoin (filter0 (address_label_is "Work") (addresses c)).
Definition homeAddressData (c : Contact) : option Address.t :=
  mjoin (filter0 (address_label_is "Home") (addresses c)).

(** [if (data?.f) acc += data.f + " "]. *)
Definition append_part (acc : string) (part : option string) : string :=
  match part with
  | Some s => if truthy s then acc +:+ s +:+ " " else acc
  | None => acc
  end.

(** The four guarded appends that build [workAddress] / [homeAddress]. *)
Definition addressString (data : option Address.t) : string :=
  let address := "" in
  let address := append_part address (data ≫= Address.street) in
  let address := append_part address (data ≫= Address.zip) in
  let address := append_part address (data ≫= Address.city) in
  let address := append_part address (data ≫= Address.country) in
  address.

Definition workAddress (c : Contact) : string := addressString (workAddressData c).
Definition homeAddress (c : Contact) : string := addressString (homeAddressData c).

Section App.

Variable is_email : string -> bool.
(** [DATABASES_IDS] is imported from a module that is not part of the
    sources at hand; the two identifiers are taken as given. *)
Variable DATABASES_IDS : DatabaseIds.
Variable env : Bindings.

Definition organizationId (c : Contact) : Notion (option string) :=
  match organization c with
  | Some organization =>
      if truthy organization then
        results ← query (organizations DATABASES_IDS)
                    (Single (title_equals "Name" organization));
        let organizationId := Page.id <$> head results in
        match organizationId with
        | None =>
            createResponse ← create (organizations DATABASES_IDS)
                               {[ "Name" := PTitle organization ]};
            mret (Some (Page.id createResponse))
        | Some _ => mret organizationId
        end
      else mret None
  | None => mret None
  end.

Definition properties (c : Contact) (organizationId : option string)
  : gmap string PropertyValue :=
  object_literal
    [ {[ "Last Name" := PTitle (lastName c) ]};
      js_and (firstName c) (fun firstName => {[ "First Name" := PRichText firstName ]});
      js_and (workEmail c) (fun workEmail => {[ "Email (Work)" := PEmail workEmail ]});
      js_and (homeEmail c) (fun homeEmail => {[ "Email (Home)" := PEmail homeEmail ]});
      js_and (mainPhone c) (fun mainPhone => {[ "Main" := PPhoneNumber mainPhone ]});
      js_and (workPhone c) (fun workPhone => {[ "Work" := PPhoneNumber workPhone ]});
      js_and (mobilePhone c) (fun mobilePhone => {[ "Mobile" := PPhoneNumber mobilePhone ]});
      js_and (homePhone c)
        (fun homePhone => {[ "Home" := PPhoneNumber (Phone.number homePhone) ]});
      js_and (workAddressData c) (fun _ => {[ "Address (Work)" := PRichText (workAddress c) ]});
      js_and (homeAddressData c) (fun _ => {[ "Address (Home)" := PRichText (homeAddress c) ]});
      js_and (note c) (fun note => {[ "iOS Notes" := PRichText note ]});
      js_and (website c) (fun website => {[ "Website" := PUrl website ]});
      js_and (jobTitle c) (fun jobTitle => {[ "Job Title" := PRichText jobTitle ]});
      js_and (organization c) (fun _ => {[ "Organization" := PRelation [organizationId] ]});
      {[ "Source" :=
           PSelect (if String.eqb (source c) "ios-contact" then "iOS Contact"
                    else source c) ]} ].

(** The contact lookup, and the create-or-update that follows it. *)
Definition upsert (c : Contact) (properties : gmap string PropertyValue)
  : Notion Response :=
  retrieveResponse ←
    query (contacts DATABASES_IDS)
      (And [ title_equals "Last Name" (lastName c);
             rich_text_equals "First Name" (default "" (firstName c)) ]);
  match retrieveResponse with
  | [] =>
      createResponse ← create (contacts DATABASES_IDS) properties;
      mret (c_json [ ("message", Some "Successfully created contact");
                     ("pageId", Some (Page.id createResponse));
                     ("firstName", firstName c);
                     ("lastName", Some (lastName c)) ] 201)
  | first :: _ =>
      updateResponse ← update (Page.id first) properties;
      mret (c_json [ ("message", Some "Successfully updated contact");
                     ("firstName", firstName c);
                     ("lastName", Some (lastName c));
                     ("pageId", Some (Page.id updateResponse)) ] 200)
  end.

(** The handler of [POST /ios-contact]: it destructures the first element
    of the validated array, which throws a [TypeError] on an empty one. *)
Definition handler (valid : list Contact) : Notion Response :=
  match valid with
  | [] => Throw (OtherError "TypeError" "Cannot destructure property of undefined")
  | c :: _ =>
      organizationId ← organizationId c;
      upsert c (properties c organizationId)
  end.

(** Route table: [GET /public], [POST /ios-contact], otherwise not found.
    The router compares the decoded path, and dispatches a HEAD request as
    a GET request. *)
Definition route (req : Request) : Notion Response :=
  match method req with
  | GET | HEAD =>
      if String.eqb (getPath req) "/public" then mret (c_text "Hello World")
      else mret notFound
  | POST =>
      if String.eqb (getPath req) "/ios-contact"
      then zValidator (schema is_email) (body req) handler
      else mret notFound
  | PUT | DELETE | OPTIONS | PATCH => mret notFound
  end.

(** [app.use(protect)] in front of every route. *)
Definition app (req : Request) : Notion Response := protect env req (route req).

(** One request against a Notion service in state [s]: whatever the
    pipeline throws is translated by [onError].  The response is the one
    the pipeline builds; [sent] is what then leaves the server. *)
Definition fetch {S} (notion : Client S) (req : Request) (s : S)
  : list Call * Response * S :=
  let '(calls, result, s') := run notion (app req) s in
  (calls, match result with inl error => onError error | inr response => response end, s').

End App.

(** The framework answers a HEAD request with the status of the response
    the pipeline built and a null body. *)
Definition sent (req : Request) (response : Response) : Response :=
  match method req with
  | HEAD => {| status := status response; body_of := NoBody |}
  | _ => response
  end.

(** ** Vocabulary of the specification *)

(** A source value that is present and, being a string, not empty. *)
Definition nonempty (x : option string) : option string :=
  s ← x; if decide (s = "") then None else Some s.

(** Selection by label as the specification words it: the value of the
    first entry, in array order, whose label is one of [targets]; nothing
    when no entry has such a label. *)
Definition selects_first {E} (label : E -> string) (value : E -> string)
    (targets : list string) (entries : list E) (selected : option string) : Prop :=
  (∀ before e after,
      entries = before ++ e :: after →
      label e ∈ targets →
      (∀ e', e' ∈ before → label e' ∉ targets) →
      selected = Some (value e))
  ∧ ((∀ e, e ∈ entries → label e ∉ targets) → selected = None).

(** The display string of an address as the specification words it: every
    present sub-field followed by a space, in the order street, zip, city,
    country. *)
Definition followed_by_space (part : option string) : string :=
  match part with Some s => s +:+ " " | None => "" end.
Definition display_string (a : Address.t) : string :=
  followed_by_space (Address.street a) +:+ followed_by_space (Address.zip a)
  +:+ followed_by_space (Address.city a) +:+ followed_by_space (Address.country a).

(** The address with every empty sub-field treated as absent. *)
Definition drop_empty (a : Address.t) : Address.t :=
  {| Address.city := nonempty (Address.city a);
     Address.street := nonempty (Address.street a);
     Address.country := nonempty (Address.country a);
     Address.zip := nonempty (Address.zip a);
     Address.state := nonempty (Address.state a);
     Address.label := Address.label a |}.

(** The names of all the fields the handler can send. *)
Definition field_names : list string :=
  [ "Last Name"; "First Name"; "Email (Work)"; "Email (Home)"; "Main"; "Work";
    "Mobile"; "Home"; "Address (Work)"; "Address (Home)"; "iOS Notes"; "Website";
    "Job Title"; "Organization"; "Source" ].

(** The filter of the contact lookup: last name and first name, the empty
    string standing for an absent first name. *)
Definition contact_filter (c : Contact) : Filter :=
  And [ title_equals "Last Name" (lastName c);
        rich_text_equals "First Name" (default "" (firstName c)) ].

(** A value that is a string, and one that is a string or undefined. *)
Definition is_string (v : option json) : Prop := ∃ s, v = Some (JString s).
Definition is_optional_string (v : option json) : Prop := v = None ∨ is_string v.

(** The keys of the three nested collections, and of an address. *)
Definition collection_keys : list string := [ "emails"; "phones"; "addresses" ].
Definition address_keys : list string :=
  [ "city"; "street"; "country"; "zip"; "state"; "label" ].

(** Well-formed entries of the nested collections: an e-mail entry is an
    object with a string [email] of e-mail syntax and a string [label]; a
    phone entry is an object with a string [label] and a string [number];
    an address entry is an object whose sub-fields are strings where
    present.  An entry that is not well-formed is malformed. *)
Definition well_formed_email (is_email : string -> bool) (entry : json) : Prop :=
  ∃ eo address, entry = JObject eo
                ∧ field eo "email" = Some (JString address)
                ∧ is_email address = true
                ∧ is_string (field eo "label").
Definition well_formed_phone (entry : json) : Prop :=
  ∃ po, entry = JObject po
        ∧ is_string (field po "label") ∧ is_string (field po "number").
Definition well_formed_address (entry : json) : Prop :=
  ∃ ao, entry = JObject ao
        ∧ ∀ k, k ∈ address_keys → is_optional_string (field ao k).

(** The Notion error that the error translator singles out. *)
Definition is_unauthorized (error : Error) : Prop :=
  ∃ message, error = NotionClientError (inl Unauthorized) message.

(** The two bodies the error translator can send. *)
Definition upstream_unauthorized : Response :=
  c_json [("message", Some "Notion responded with an unauthorized error")] 401.
Definition generic_failure : Response :=
  c_json [("message", Some "An error occurred")] 500.

(** A query or a creation that addresses one of the two configured
    databases; an update addresses a page, not a database. *)
Definition addresses_configured (ids : DatabaseIds) (call : Call) : Prop :=
  match call with
  | Query d _ | Create d _ => d = organizations ids ∨ d = contacts ids
  | Update _ _ => True
  end.

(** The status codes the service answers with. *)
Definition statuses : list nat := [200; 201; 400; 401; 404; 500].

(** The keys whose schema is [z.string().optional()]. *)
Definition optional_string_keys : list string :=
  [ "firstName"; "organization"; "note"; "website"; "jobTitle" ].

(** The keys of the schema other than the required [lastName]. *)
Definition optional_keys : list string :=
  [ "firstName"; "organization"; "emails"; "addresses"; "phones"; "note"; "website";
    "jobTitle"; "source" ].

(** The contact that has a last name and nothing else. *)
Definition only_last_name (last : string) : Contact :=
  {| firstName := None; organization := None; lastName := last; emails := None;
     addresses := None; phones := None; note := None; website := None;
     jobTitle := None; source := "ios-contact" |}.

(** Two elements of an addresses array that differ at most in [state]. *)
Definition same_but_state (x y : option Address.t) : Prop :=
  match x, y with
  | Some a, Some b =>
      Address.city a = Address.city b ∧ Address.street a = Address.street b
      ∧ Address.country a = Address.country b ∧ Address.zip a = Address.zip b
      ∧ Address.label a = Address.label b
  | None, None => True
  | _, _ => False
  end.

(** The contact [c] with another addresses array. *)
Definition with_addresses (c : Contact) (addresses : option (list (option Address.t)))
  : Contact :=
  {| firstName := firstName c; organization := organization c; lastName := lastName c;
     emails := emails c; addresses := addresses; phones := phones c; note := note c;
     website := website c; jobTitle := jobTitle c; source := source c |}.

(** ** Sample services and inputs, used to exercise the statements *)

Module Sample.

(** A service whose queries answer [found d] for database [d], whose
    creations hand out numbered identifiers, and whose updates return the
    page they were asked to update. *)
Definition scripted (found : string -> list Page.t) : Client nat :=
  {| on_query := fun d _ n => (inr (found d), n);
     on_create := fun _ _ n => (inr {| Page.id := "new-" +:+ pretty n |}, S n);
     on_update := fun i _ n => (inr {| Page.id := i |}, n) |}.

(** A service that rejects every call with the same error. *)
Definition failing (e : Error) : Client unit :=
  {| on_query := fun _ _ s => (inl e, s);
     on_create := fun _ _ s => (inl e, s);
     on_update := fun _ _ s => (inl e, s) |}.

(** Two contacts already match; no organization does. *)
Definition existing (database_id : string) : list Page.t :=
  if String.eqb database_id "contacts-db"
  then [ {| Page.id := "abc123" |}; {| Page.id := "def456" |} ]
  else [].

Definition ids : DatabaseIds := {| organizations := "orgs-db"; contacts := "contacts-db" |}.

Definition env : Bindings :=
  {| NOTION_TOKEN := "token"; PASSWORD := "s3cret";
     GOOGLE_API_KEY := ""; GCP_SERVICE_ACCOUNT := "" |}.

(** A crude stand-in for the e-mail syntax check: an at sign somewhere
    after the first character. *)
Definition has_at (s : string) : bool :=
  match index 1 "@" s with Some _ => true | None => false end.

Definition paris : Address.t :=
  {| Address.city := Some "Paris"; Address.street := None;
     Address.country := Some "France"; Address.zip := None;
     Address.state := None; Address.label := Some "Work" |}.

(** The same address with a state. *)
Definition paris_idf : Address.t :=
  {| Address.city := Some "Paris"; Address.street := None;
     Address.country := Some "France"; Address.zip := None;
     Address.state := Some "IDF"; Address.label := Some "Work" |}.

Definition jane : Contact :=
  {| firstName := Some "Jane"; organization := Some "Acme"; lastName := "Doe";
     emails := Some [ {| Email.email := "jane@acme.test"; Email.label := "Work" |};
                      {| Email.email := "jane@home.test"; Email.label := "Home" |} ];
     addresses := Some [ Some paris ];
     phones := Some [ {| Phone.label := "iPhone"; Phone.number := "111" |};
                      {| Phone.label := "Mobile"; Phone.number := "222" |} ];
     note := None; website := None; jobTitle := Some "Engineer";
     source := "ios-contact" |}.

(** The JSON body that validates to [[jane]]. *)
Definition jane_json : json :=
  JArray [ JObject
    [ ("firstName", JString "Jane"); ("organization", JString "Acme");
      ("lastName", JString "Doe");
      ("emails", JArray
         [ JObject [ ("email", JString "jane@acme.test"); ("label", JString "Work") ];
           JObject [ ("email", JString "jane@home.test"); ("label", JString "Home") ] ]);
      ("addresses", JArray
         [ JObject [ ("city", JString "Paris"); ("country", JString "France");
                     ("label", JString "Work") ] ]);
      ("phones", JArray
         [ JObject [ ("label", JString "iPhone"); ("number", JString "111") ];
           JObject [ ("label", JString "Mobile"); ("number", JString "222") ] ]);
      ("jobTitle", JString "Engineer") ] ].

(** A contact whose optional strings are present but empty. *)
Definition blank : Contact :=
  {| firstName := Some ""; organization := Some ""; lastName := "Doe";
     emails := None;
     addresses := Some [ Some {| Address.city := Some "Paris"; Address.street := Some "";
                                 Address.country := None; Address.zip := None;
                                 Address.state := None; Address.label := Some "Work" |} ];
     phones := None; note := None; website := None; jobTitle := None;
     source := "ios-contact" |}.

(** A batch of two minimal contacts. *)
Definition doe_object : json := JObject [ ("lastName", JString "Doe") ].
Definition batch : json :=
  JArray [ doe_object;
           JObject [ ("lastName", JString "Roe"); ("organization", JString "Acme") ] ].

Definition post (authorization : option string) (body : json) : Request :=
  {| method := POST; pathname := "/ios-contact";
     authorization := authorization; body := body |}.

(** The same request with the first letter of the path percent-escaped. *)
Definition escaped_post (authorization : option string) (body : json) : Request :=
  {| method := POST; pathname := "/%69os-contact";
     authorization := authorization; body := body |}.

End Sample.

(** * Properties *)

(** ** Running programs *)

Lemma run_bind {S A B} (notion : Client S) (m : Notion A) (f : A -> Notion B) (s : S) :
  run notion (m ≫= f) s =
    match run notion m s with
    | (calls, inl e, s') => (calls, inl e, s')
    | (calls, inr a, s') =>
        let '(calls', r, s'') := run notion (f a) s' in (calls ++ calls', r, s'')
    end.
Proof.
  revert s. induction m as [a|e|d q k IH|d p k IH|i p k IH]; intros s; simpl.
  - by destruct (run notion (f a) s) as [[? ?] ?].
  - done.
  - unfold answer. destruct (on_query notion d q s) as [[e|r] s1]; [done|].
    change (run notion (bind (k r) f) s1) with (run notion (k r ≫= f) s1).
    rewrite IH. destruct (run notion (k r) s1) as [[cs [e|a]] s2]; [done|].
    by destruct (run notion (f a) s2) as [[? ?] ?].
  - unfold answer. destruct (on_create notion d p s) as [[e|r] s1]; [done|].
    change (run notion (bind (k r) f) s1) with (run notion (k r ≫= f) s1).
    rewrite IH. destruct (run notion (k r) s1) as [[cs [e|a]] s2]; [done|].
    by destruct (run notion (f a) s2) as [[? ?] ?].
  - unfold answer. destruct (on_update notion i p s) as [[e|r] s1]; [done|].
    change (run notion (bind (k r) f) s1) with (run notion (k r ≫= f) s1).
    rewrite IH. destruct (run notion (k r) s1) as [[cs [e|a]] s2]; [done|].
    by destruct (run notion (f a) s2) as [[? ?] ?].
Qed.

(** ** Paths without escapes *)

Lemma getPath_public (req : Request) :
  pathname req = "/public" → getPath req = "/public".
Proof. unfold getPath. by intros ->. Qed.

Lemma getPath_ios_contact (req : Request) :
  pathname req = "/ios-contact" → getPath req = "/ios-contact".
Proof. unfold getPath. by intros ->. Qed.

(** ** Selection by label *)

Section Selection.

Context {E : Type} (p : E -> bool).

Lemma head_filter_first (before : list E) (e : E) (after : list E) :
  p e = true →
  (∀ e', e' ∈ before → p e' = false) →
  head (List.filter p (before ++ e :: after)) = Some e.
Proof.
  intros He. induction before as [|b before IH]; intros Hb; simpl.
  - by rewrite He.
  - rewrite (Hb b) by left. apply IH. intros e' ?. apply Hb. by right.
Qed.

Lemma head_filter_none (entries : list E) :
  (∀ e, e ∈ entries → p e = false) → head (List.filter p entries) = None.
Proof.
  induction entries as [|b entries IH]; intros Hb; simpl; [done|].
  rewrite (Hb b) by left. apply IH. intros e ?. apply Hb. by right.
Qed.

Lemma filter0_selects (label value : E -> string) (targets : list string)
    (arr : option (list E)) :
  (∀ e, p e = true ↔ label e ∈ targets) →
  selects_first label value targets (default [] arr) (value <$> filter0 p arr).
Proof.
  intros Hp.
  assert (Hn : ∀ e, label e ∉ targets → p e = false).
  { intros e Hne. destruct (p e) eqn:Hpe; [|done]. by apply Hp in Hpe. }
  split.
  - intros before e after Hl He Hb. destruct arr as [l|]; simpl in *.
    + subst l. rewrite head_filter_first; [done|by apply Hp|]. intros; apply Hn; auto.
    + by destruct before.
  - intros Hall. destruct arr as [l|]; simpl in *; [|done].
    rewrite head_filter_none; [done|]. intros; apply Hn; auto.
Qed.

End Selection.

Lemma eqb_in_singleton (s t : string) : String.eqb s t = true ↔ s ∈ [t].
Proof. by rewrite String.eqb_eq, list_elem_of_singleton. Qed.

Lemma mobile_labels (s : string) :
  existsb (String.eqb s) ["iPhone"; "Mobile"] = true ↔ s ∈ ["iPhone"; "Mobile"].
Proof.
  simpl. rewrite orb_false_r, orb_true_iff, !String.eqb_eq.
  by rewrite elem_of_cons, list_elem_of_singleton.
Qed.

(** C3. In every labeled collection of the payload, each selection made by
    the handler (work and home e-mail; main, work, mobile and home phone) is
    the value of the first entry, in array order, whose label matches, and
    is absent when no entry matches (an absent collection has no entries).
    The mobile number matches on "iPhone" or "Mobile": when an "iPhone"
    entry comes before a "Mobile" entry and nothing earlier matches, the
    mobile number is the "iPhone" entry's number. *)
Theorem selection_is_first_match (c : Contact) :
  selects_first Email.label Email.email ["Work"] (default [] (emails c)) (workEmail c)
  ∧ selects_first Email.label Email.email ["Home"] (default [] (emails c)) (homeEmail c)
  ∧ selects_first Phone.label Phone.number ["Main"] (default [] (phones c)) (mainPhone c)
  ∧ selects_first Phone.label Phone.number ["Work"] (default [] (phones c)) (workPhone c)
  ∧ selects_first Phone.label Phone.number ["iPhone"; "Mobile"]
      (default [] (phones c)) (mobilePhone c)
  ∧ selects_first Phone.label Phone.number ["Home"]
      (default [] (phones c)) (Phone.number <$> homePhone c)
  ∧ (∀ before iphone between mobile after,
        phones c = Some (before ++ iphone :: between ++ mobile :: after) →
        Phone.label iphone = "iPhone" →
        Phone.label mobile = "Mobile" →
        (∀ p, p ∈ before → Phone.label p ∉ ["iPhone"; "Mobile"]) →
        mobilePhone c = Some (Phone.number iphone)).
Proof.
  assert (Hmobile : selects_first Phone.label Phone.number ["iPhone"; "Mobile"]
                      (default [] (phones c)) (mobilePhone c)).
  { apply filter0_selects. intros e. apply mobile_labels. }
  repeat split;
    try (apply filter0_selects; intros e; apply eqb_in_singleton);
    try apply Hmobile.
  intros before iphone between mobile after Hphones Hi _ Hbefore.
  destruct Hmobile as [Hfirst _].
  apply (Hfirst before iphone (between ++ mobile :: after)).
  - by rewrite Hphones.
  - rewrite Hi. by left.
  - done.
Qed.

Lemma selection_is_first_match_witness :
  mobilePhone Sample.jane = Some "111".
Proof.
  refine (proj2 (proj2 (proj2 (proj2 (proj2 (proj2
            (selection_is_first_match Sample.jane))))))
            [] {| Phone.label := "iPhone"; Phone.number := "111" |}
            [] {| Phone.label := "Mobile"; Phone.number := "222" |}
            [] eq_refl eq_refl eq_refl _).
  intros p Hp. inversion Hp.
Defined.

(** ** Address display strings *)

Lemma append_empty_l (s : string) : "" +:+ s = s.
Proof. reflexivity. Qed.

Lemma append_empty_r (s : string) : s +:+ "" = s.
Proof. induction s as [|a s IH]; [done|]. unfold String.app in *. simpl. by rewrite IH. Qed.

Lemma append_assoc (s t u : string) : (s +:+ t) +:+ u = s +:+ (t +:+ u).
Proof. induction s as [|a s IH]; [done|]. unfold String.app in *. simpl. by rewrite IH. Qed.

Lemma truthy_string (s : string) : truthy s = bool_decide (s ≠ "").
Proof.
  unfold truthy, string_truthy. destruct (String.eqb_spec s "") as [->|Hne].
  - done.
  - symmetry. by apply bool_decide_eq_true.
Qed.

Lemma append_part_spec (acc : string) (part : option string) :
  append_part acc part = acc +:+ followed_by_space (nonempty part).
Proof.
  destruct part as [s|]; simpl; [|by rewrite append_empty_r].
  rewrite truthy_string. destruct (decide (s = "")) as [->|Hne]; simpl.
  - by rewrite append_empty_r.
  - by rewrite bool_decide_eq_true_2.
Qed.

Lemma addressString_spec (a : Address.t) :
  addressString (Some a) = display_string (drop_empty a).
Proof.
  unfold addressString, display_string. simpl.
  by rewrite !append_part_spec, append_empty_l, !append_assoc.
Qed.

(** C4, as stated, fails: a sub-field that is present but empty is skipped
    without its trailing space.  For a work address with street [""] and
    city ["Paris"] the handler builds ["Paris "], not [" Paris "]. *)
Lemma display_string_fails_on_empty_part :
  ¬ (∀ c a, workAddressData c = Some a → workAddress c = display_string a).
Proof.
  intros H.
  specialize (H Sample.blank _ eq_refl). vm_compute in H. discriminate H.
Qed.

(** C4 (amended). For the selected work address and the selected home
    address, the display string is the concatenation, in the order street,
    zip, city, country, of each sub-field that is present and not empty
    followed by one space; absent and empty sub-fields contribute nothing.
    With only a non-empty city and a non-empty country present, it is the
    city, a space, the country, a space. *)
Theorem address_display_string (c : Contact) :
  (∀ a, workAddressData c = Some a → workAddress c = display_string (drop_empty a))
  ∧ (∀ a, homeAddressData c = Some a → homeAddress c = display_string (drop_empty a))
  ∧ (∀ a city country,
        Address.street a = None → Address.zip a = None →
        Address.city a = Some city → Address.country a = Some country →
        city ≠ "" → country ≠ "" →
        (workAddressData c = Some a → workAddress c = city +:+ " " +:+ country +:+ " ")
        ∧ (homeAddressData c = Some a → homeAddress c = city +:+ " " +:+ country +:+ " ")).
Proof.
  split; [|split].
  - intros a Ha. unfold workAddress. rewrite Ha. apply addressString_spec.
  - intros a Ha. unfold homeAddress. rewrite Ha. apply addressString_spec.
  - intros a city country Hs Hz Hc Hk Hcity Hcountry.
    assert (addressString (Some a) = city +:+ " " +:+ country +:+ " ") as Hstring.
    { rewrite addressString_spec. unfold display_string, drop_empty. simpl.
      rewrite Hs, Hz, Hc, Hk. simpl.
      destruct (decide (city = "")); [done|]. destruct (decide (country = "")); [done|].
      simpl. by rewrite !append_empty_l, append_assoc. }
    split; intros Ha; [unfold workAddress|unfold homeAddress]; by rewrite Ha.
Qed.

Lemma address_display_string_witness :
  workAddress Sample.jane = "Paris France ".
Proof.
  pose proof (address_display_string Sample.jane) as (_ & _ & Hparticular).
  refine (proj1 (Hparticular Sample.paris "Paris" "France" eq_refl eq_refl eq_refl eq_refl _ _) eq_refl);
    discriminate.
Defined.

(** ** The property set *)

Lemma lookup_js_and_string (x : option string) (key : string)
    (v : string -> PropertyValue) (k : string) :
  js_and x (fun a => {[ key := v a ]}) !! k =
    if decide (key = k) then v <$> nonempty x else None.
Proof.
  unfold js_and, nonempty. destruct x as [s|]; simpl.
  - rewrite truthy_string. destruct (decide (s = "")) as [->|Hne]; simpl.
    + rewrite lookup_empty. by case_decide.
    + rewrite bool_decide_eq_true_2 by done. rewrite lookup_singleton. by case_decide.
  - rewrite lookup_empty. by case_decide.
Qed.

Lemma lookup_js_and_object {A} `{Truthy A} (x : option A) (key : string)
    (v : A -> PropertyValue) (k : string) :
  (∀ a, truthy a = true) →
  js_and x (fun a => {[ key := v a ]}) !! k =
    if decide (key = k) then v <$> x else None.
Proof.
  intros Ht. unfold js_and. destruct x as [a|]; simpl.
  - rewrite Ht, lookup_singleton. by case_decide.
  - rewrite lookup_empty. by case_decide.
Qed.

Lemma option_union_None_r {A} (x : option A) : x ∪ None = x.
Proof. by destruct x. Qed.

Lemma option_union_None_l {A} (x : option A) : None ∪ x = x.
Proof. by destruct x. Qed.

Ltac lookup_properties :=
  unfold properties, object_literal, assign; simpl foldl;
  rewrite !lookup_union, !lookup_js_and_string,
    !(lookup_js_and_object (A:=Phone.t)), !(lookup_js_and_object (A:=Address.t)),
    !lookup_singleton, ?lookup_empty by done;
  simpl;
  rewrite ?option_union_None_r, ?option_union_None_l.

Lemma lookup_properties_other (c : Contact) (oid : option string) (k : string) :
  k ∉ field_names → properties c oid !! k = None.
Proof.
  intros Hk.
  unfold properties, object_literal, assign; simpl foldl.
  rewrite !lookup_union, !lookup_js_and_string,
    !(lookup_js_and_object (A:=Phone.t)), !(lookup_js_and_object (A:=Address.t)),
    !lookup_singleton, ?lookup_empty by done.
  rewrite !decide_False; [done|intros <-; apply Hk; unfold field_names; set_solver ..].
Qed.

Lemma property_set_fields_organization (c : Contact) (oid : option string) :
  properties c oid !! "Organization" = (fun _ => PRelation [oid]) <$> nonempty (organization c)
  ∧ properties c oid !! "Source" =
      Some (PSelect (if String.eqb (source c) "ios-contact" then "iOS Contact"
                     else source c)).
Proof. split; by lookup_properties. Qed.

(** C2, as stated, fails: a source value can be present and its field still
    be left out.  A first name that is present but empty produces no
    "First Name" field. *)
Lemma present_first_name_without_field :
  ¬ (∀ c oid, is_Some (firstName c) ↔ is_Some (properties c oid !! "First Name")).
Proof.
  intros H. destruct (H Sample.blank None) as [Hpresent _].
  destruct Hpresent as [v Hv]; [by eexists|]. vm_compute in Hv. discriminate Hv.
Qed.

(** C2 (amended). The property set holds a field exactly when its source
    value is present and, for the string-valued sources (first name, work
    and home e-mail, main, work and mobile number, note, website, job title,
    organization name), not empty; the home phone field and the two address
    fields are held exactly when a matching entry was selected.  A field
    that is held has the typed value of its source (title, rich text,
    e-mail, phone number, url, relation, select); the last name and the
    source select are always held; nothing else is ever in the set, so an
    omitted field is missing, not null. *)
Theorem property_set_fields (c : Contact) (oid : option string) :
  properties c oid !! "Last Name" = Some (PTitle (lastName c))
  ∧ properties c oid !! "First Name" = PRichText <$> nonempty (firstName c)
  ∧ properties c oid !! "Email (Work)" = PEmail <$> nonempty (workEmail c)
  ∧ properties c oid !! "Email (Home)" = PEmail <$> nonempty (homeEmail c)
  ∧ properties c oid !! "Main" = PPhoneNumber <$> nonempty (mainPhone c)
  ∧ properties c oid !! "Work" = PPhoneNumber <$> nonempty (workPhone c)
  ∧ properties c oid !! "Mobile" = PPhoneNumber <$> nonempty (mobilePhone c)
  ∧ properties c oid !! "Home" = (fun p => PPhoneNumber (Phone.number p)) <$> homePhone c
  ∧ properties c oid !! "Address (Work)" =
      (fun _ => PRichText (workAddress c)) <$> workAddressData c
  ∧ properties c oid !! "Address (Home)" =
      (fun _ => PRichText (homeAddress c)) <$> homeAddressData c
  ∧ properties c oid !! "iOS Notes" = PRichText <$> nonempty (note c)
  ∧ properties c oid !! "Website" = PUrl <$> nonempty (website c)
  ∧ properties c oid !! "Job Title" = PRichText <$> nonempty (jobTitle c)
  ∧ properties c oid !! "Organization" =
      (fun _ => PRelation [oid]) <$> nonempty (organization c)
  ∧ (∃ name, properties c oid !! "Source" = Some (PSelect name))
  ∧ (∀ k, is_Some (properties c oid !! k) → k ∈ field_names).
Proof.
  repeat match goal with |- _ ∧ _ => split end;
    try (by lookup_properties).
  - eexists. by lookup_properties.
  - intros k Hk. destruct (decide (k ∈ field_names)) as [|Hout]; [done|].
    rewrite lookup_properties_other in Hk by done. by destruct Hk.
Qed.

Lemma property_set_fields_witness :
  "Job Title" ∈ field_names.
Proof.
  refine (proj2 (proj2 (proj2 (proj2 (proj2 (proj2 (proj2 (proj2 (proj2 (proj2 (proj2
            (proj2 (proj2 (proj2 (proj2
              (property_set_fields Sample.jane None))))))))))))))) "Job Title" _).
  exists (PRichText "Engineer"). vm_compute. reflexivity.
Defined.

(** ** Organization resolution *)

Ltac unfold_notion :=
  unfold query, create, update, mbind, notion_bind, mret, notion_ret in *; simpl.

Lemma nonempty_Some (x : option string) (s : string) :
  nonempty x = Some s ↔ x = Some s ∧ s ≠ "".
Proof.
  unfold nonempty. destruct x as [t|]; simpl.
  - destruct (decide (t = "")) as [->|Hne]; split.
    + discriminate.
    + intros [[= <-] Hne]. by destruct Hne.
    + by intros [= <-].
    + by intros [<- _].
  - split; [discriminate|]. by intros [[=] _].
Qed.

Lemma nonempty_None (x : option string) :
  nonempty x = None ↔ x = None ∨ x = Some "".
Proof.
  unfold nonempty. destruct x as [t|]; simpl.
  - destruct (decide (t = "")) as [->|Hne]; split.
    + by right.
    + done.
    + discriminate.
    + intros [[=]|[= ->]]. by destruct Hne.
  - split; [by left|done].
Qed.

(** C5, as stated, fails: an organization name that is present but empty
    triggers no lookup at all. *)
Lemma present_organization_without_lookup :
  ¬ (∀ (ids : DatabaseIds) (c : Contact) (name : string) (notion : Client nat) (s : nat),
        organization c = Some name →
        ∃ calls, (run notion (organizationId ids c) s).1.1
                 = Query (organizations ids) (Single (title_equals "Name" name)) :: calls).
Proof.
  intros H.
  destruct (H Sample.ids Sample.blank "" (Sample.scripted (fun _ => [])) 0 eq_refl)
    as [calls Hcalls].
  vm_compute in Hcalls. discriminate Hcalls.
Qed.

(** C5 (amended). If the organization name is absent or empty, the resolver
    calls nothing, yields no identifier, and the property set has no
    Organization field.  If it is present and not empty, the organizations
    collection is queried for a title equal to it; when the query answers
    with at least one record the first one's identifier is the result and
    nothing is created; when it answers with none, an organization with that
    title is created and the new record's identifier is the result; and the
    Organization relation of the property set built from the result
    references exactly that identifier. *)
Theorem organization_resolution (ids : DatabaseIds) {S} (notion : Client S)
    (c : Contact) (s : S) :
  (nonempty (organization c) = None →
     run notion (organizationId ids c) s = ([], inr None, s)
     ∧ ∀ oid, properties c oid !! "Organization" = None)
  ∧ (∀ name, nonempty (organization c) = Some name →
       let lookup := Single (title_equals "Name" name) in
       let record : gmap string PropertyValue := {[ "Name" := PTitle name ]} in
       (∀ found others s1,
           on_query notion (organizations ids) lookup s = (inr (found :: others), s1) →
           run notion (organizationId ids c) s
           = ([Query (organizations ids) lookup], inr (Some (Page.id found)), s1))
       ∧ (∀ s1 created s2,
           on_query notion (organizations ids) lookup s = (inr [], s1) →
           on_create notion (organizations ids) record s1 = (inr created, s2) →
           run notion (organizationId ids c) s
           = ([Query (organizations ids) lookup; Create (organizations ids) record],
              inr (Some (Page.id created)), s2))
       ∧ (∀ calls oid s',
           run notion (organizationId ids c) s = (calls, inr oid, s') →
           ∃ id, oid = Some id
                 ∧ properties c oid !! "Organization" = Some (PRelation [Some id]))).
Proof.
  split.
  - intros Hnone. split.
    + unfold organizationId. apply nonempty_None in Hnone as [-> | ->]; done.
    + intros oid. destruct (property_set_fields_organization c oid) as [-> ?].
      by rewrite Hnone.
  - intros name Hname. cbv zeta.
    set (lookup := Single (title_equals "Name" name)).
    set (record := ({[ "Name" := PTitle name ]} : gmap string PropertyValue)).
    assert (Hrun : run notion (organizationId ids c) s =
              answer (Query (organizations ids) lookup)
                (on_query notion (organizations ids) lookup s)
                (fun results s1 =>
                   match head results with
                   | Some found => ([], inr (Some (Page.id found)), s1)
                   | None =>
                       answer (Create (organizations ids) record)
                         (on_create notion (organizations ids) record s1)
                         (fun created s2 => ([], inr (Some (Page.id created)), s2))
                   end)).
    { apply nonempty_Some in Hname as [Horg Hne].
      unfold organizationId. rewrite Horg, truthy_string, bool_decide_eq_true_2 by done.
      unfold_notion. fold lookup record. unfold answer.
      destruct (on_query notion (organizations ids) lookup s) as [[e|results] s1]; [done|].
      destruct results as [|found others]; simpl; [|done].
      by destruct (on_create notion (organizations ids) record s1) as [[e|created] s2]. }
    split; [|split].
    + intros found others s1 Hq. by rewrite Hrun, Hq.
    + intros s1 created s2 Hq Hc. rewrite Hrun, Hq. simpl. by rewrite Hc.
    + intros calls oid s' Hrun'. rewrite Hrun in Hrun'. unfold answer in Hrun'.
      assert (∃ id, oid = Some id) as [id ->].
      { destruct (on_query notion (organizations ids) lookup s) as [[e|results] s1];
          [done|].
        destruct (head results) as [found|]; [by simplify_eq; eauto|].
        destruct (on_create notion (organizations ids) record s1) as [[e|created] s2];
          by simplify_eq; eauto. }
      exists id. split; [done|].
      destruct (property_set_fields_organization c (Some id)) as [-> ?].
      by rewrite Hname.
Qed.

Lemma organization_resolution_witness :
  run (Sample.scripted (fun _ => [])) (organizationId Sample.ids Sample.jane) 0
  = ([ Query "orgs-db" (Single (title_equals "Name" "Acme"));
       Create "orgs-db" {[ "Name" := PTitle "Acme" ]} ],
     inr (Some "new-0"), 1).
Proof.
  exact (proj1 (proj2 (proj2 (organization_resolution Sample.ids
                                (Sample.scripted (fun _ => [])) Sample.jane 0)
                         "Acme" eq_refl))
           0 {| Page.id := "new-0" |} 1 eq_refl eq_refl).
Defined.

(** ** The request gate and the error translator *)

Section Gate.

Variable is_email : string -> bool.
Variable ids : DatabaseIds.
Variable env : Bindings.
Context {S : Type} (notion : Client S).

Lemma protect_public (req : Request) (next : Notion Response) :
  String.prefix "/public" (pathname req) = true → protect env req next = next.
Proof. intros Hp. unfold protect. by rewrite Hp. Qed.

Lemma protect_authorized (req : Request) (next : Notion Response) :
  authorization req = Some (PASSWORD env) → protect env req next = next.
Proof.
  intros Ha. unfold protect. destruct (String.prefix _ _); [done|].
  by rewrite bool_decide_eq_true_2.
Qed.

Lemma protect_unauthorized (req : Request) (next : Notion Response) :
  String.prefix "/public" (pathname req) = false →
  authorization req ≠ Some (PASSWORD env) →
  protect env req next = Ret (c_json [("error", Some "Unauthorized")] 401).
Proof.
  intros Hp Ha. unfold protect. rewrite Hp. by rewrite bool_decide_eq_false_2.
Qed.

(** C6. A request whose pathname starts with "/public" is passed to the
    routes whatever its Authorization header.  Any other request is passed
    to the routes when the header equals the configured secret, and
    otherwise (header missing or different) is answered 401 with body
    {error: "Unauthorized"} without any call to the store.  GET /public is
    answered 200 with the text "Hello World", in particular without an
    Authorization header. *)
Theorem request_gate (req : Request) (s : S) :
  (String.prefix "/public" (pathname req) = true →
     app is_email ids env req = route is_email ids req)
  ∧ (String.prefix "/public" (pathname req) = false →
     authorization req = Some (PASSWORD env) →
     app is_email ids env req = route is_email ids req)
  ∧ (String.prefix "/public" (pathname req) = false →
     authorization req ≠ Some (PASSWORD env) →
     fetch is_email ids env notion req s
     = ([], {| status := 401; body_of := Json [("error", Some "Unauthorized")] |}, s))
  ∧ (method req = GET → pathname req = "/public" →
     fetch is_email ids env notion req s
     = ([], {| status := 200; body_of := Text "Hello World" |}, s)).
Proof.
  repeat split.
  - apply protect_public.
  - intros _. apply protect_authorized.
  - intros Hp Ha. unfold fetch, app. by rewrite protect_unauthorized.
  - intros Hm Hp. unfold fetch, app. rewrite protect_public by by rewrite Hp.
    unfold route. by rewrite Hm, (getPath_public req Hp).
Qed.

(** C7. Whatever error escapes the pipeline, the response is the error
    translator's: 401 with {message: "Notion responded with an
    unauthorized error"} when the error is a Notion client error with the
    unauthorized code, and 500 with {message: "An error occurred"} for
    every other error; so the body is one of these two fixed messages and
    carries nothing of the error itself. *)
Theorem error_translation (req : Request) (s : S) (calls : list Call)
    (error : Error) (s' : S) :
  run notion (app is_email ids env req) s = (calls, inl error, s') →
  fetch is_email ids env notion req s = (calls, onError error, s')
  ∧ (is_unauthorized error → onError error = upstream_unauthorized)
  ∧ (¬ is_unauthorized error → onError error = generic_failure)
  ∧ (onError error = upstream_unauthorized ∨ onError error = generic_failure).
Proof.
  intros Hrun. split; [by unfold fetch; rewrite Hrun|].
  split; [by intros [message ->]|].
  assert (is_unauthorized error ∨ onError error = generic_failure) as Hcases.
  { destruct error as [[[]|[]] message|name message];
      first [by left; eexists | by right]. }
  split.
  - by intros Hnot; destruct Hcases as [?|?].
  - destruct Hcases as [[message ->]|?]; [by left|by right].
Qed.

(** C9. The empty array passes validation; the handler then throws while
    destructuring its first element, and an authorized POST /ios-contact
    with that body is answered 500 with {message: "An error occurred"}
    without any call to the store. *)
Theorem empty_batch (s : S) :
  schema is_email (Some (JArray [])) = Some []
  ∧ (∃ error, run notion (handler ids []) s = ([], inl error, s))
  ∧ fetch is_email ids env notion
      {| method := POST; pathname := "/ios-contact";
         authorization := Some (PASSWORD env); body := JArray [] |} s
    = ([], {| status := 500; body_of := Json [("message", Some "An error occurred")] |}, s).
Proof.
  split; [done|]. split; [by eexists|].
  unfold fetch, app. by rewrite protect_authorized.
Qed.

End Gate.

Lemma request_gate_witness :
  fetch Sample.has_at Sample.ids Sample.env (Sample.scripted (fun _ => []))
    (Sample.post None Sample.jane_json) 0
  = ([], {| status := 401; body_of := Json [("error", Some "Unauthorized")] |}, 0).
Proof.
  refine (proj1 (proj2 (proj2 (request_gate Sample.has_at Sample.ids Sample.env
                                 (Sample.scripted (fun _ => []))
                                 (Sample.post None Sample.jane_json) 0)))
            eq_refl _).
  discriminate.
Defined.

Lemma error_translation_witness :
  fetch Sample.has_at Sample.ids Sample.env
    (Sample.failing (NotionClientError (inl Unauthorized) "API token is invalid."))
    (Sample.post (Some "s3cret") Sample.jane_json) ()
  = ([Query "orgs-db" (Single (title_equals "Name" "Acme"))],
     {| status := 401;
        body_of := Json [("message", Some "Notion responded with an unauthorized error")] |},
     ()).
Proof.
  exact (proj1 (error_translation Sample.has_at Sample.ids Sample.env
                  (Sample.failing (NotionClientError (inl Unauthorized) "API token is invalid."))
                  (Sample.post (Some "s3cret") Sample.jane_json) ()
                  [Query "orgs-db" (Single (title_equals "Name" "Acme"))]
                  (NotionClientError (inl Unauthorized) "API token is invalid.") ()
                  eq_refl)).
Defined.

(** ** Validation *)

Ltac schema_rejects H :=
  unfold contactSchema, z_object;
  repeat first
    [ rewrite H; done
    | match goal with |- (?m ≫= _) = None => destruct m; simpl; [|done] end ].

Section Validation.

Variable is_email : string -> bool.

Lemma z_array_rejects {A} (element : ZodType A) (items : list json) (item : json) :
  item ∈ items → element (Some item) = None → z_array element (Some (JArray items)) = None.
Proof.
  intros Hin Hbad. simpl. apply mapM_None_2, Exists_exists. eauto.
Qed.

Lemma z_array_accepts {A} (element : ZodType A) (v : option json) (parsed : list A)
    (a : A) :
  z_array element v = Some parsed → a ∈ parsed →
  ∃ item, element (Some item) = Some a.
Proof.
  destruct v as [[| | | |items|]|]; simpl; try done.
  intros Hm Ha. apply mapM_Some_1 in Hm.
  induction Hm as [|item b items parsed Hitem _ IH]; [by apply elem_of_nil in Ha|].
  apply elem_of_cons in Ha as [->|Ha]; eauto.
Qed.

Lemma contactSchema_requires_lastName (o : list (string * json)) :
  (∀ str, field o "lastName" ≠ Some (JString str)) →
  contactSchema is_email (Some (JObject o)) = None.
Proof.
  intros Hno. unfold contactSchema, z_object.
  destruct (z_optional z_string (field o "firstName")); simpl; [|done].
  destruct (z_optional z_string (field o "organization")); simpl; [|done].
  destruct (field o "lastName") as [[| | |str| |]|]; simpl; try done.
  by destruct (Hno str).
Qed.

Lemma emailSchema_requires_syntax (eo : list (string * json)) (address : string) :
  field eo "email" = Some (JString address) → is_email address = false →
  emailSchema is_email (Some (JObject eo)) = None.
Proof.
  intros He Hbad. unfold emailSchema, z_object, z_string_email.
  rewrite He. simpl. by rewrite Hbad.
Qed.

Lemma contactSchema_requires_email_syntax (o : list (string * json))
    (entries : list json) (eo : list (string * json)) (address : string) :
  field o "emails" = Some (JArray entries) →
  JObject eo ∈ entries →
  field eo "email" = Some (JString address) → is_email address = false →
  contactSchema is_email (Some (JObject o)) = None.
Proof.
  intros Hemails Hin He Hbad. unfold contactSchema, z_object.
  destruct (z_optional z_string (field o "firstName")); simpl; [|done].
  destruct (z_optional z_string (field o "organization")); simpl; [|done].
  destruct (z_string (field o "lastName")); simpl; [|done].
  rewrite Hemails.
  assert (z_optional (z_array (emailSchema is_email)) (Some (JArray entries)) = None)
    as ->; [|done].
  unfold z_optional.
  by rewrite (z_array_rejects _ _ _ Hin (emailSchema_requires_syntax _ _ He Hbad)).
Qed.

Lemma contactSchema_source (o : list (string * json)) (c : Contact) :
  contactSchema is_email (Some (JObject o)) = Some c →
  (field o "source" = None ∨ field o "source" = Some (JString "ios-contact"))
  ∧ source c = "ios-contact".
Proof.
  unfold contactSchema, z_object. intros Hc.
  repeat match type of Hc with
         | (z_default _ _ _ ≫= _) = Some _ => fail 1
         | (?m ≫= _) = Some _ => destruct m; simpl in Hc; [|discriminate Hc]
         end.
  destruct (z_default _ _ (field o "source")) as [src|] eqn:Hsrc;
    simpl in Hc; [|discriminate Hc].
  injection Hc as <-. simpl.
  unfold z_default, z_optional, z_enum in Hsrc.
  destruct (field o "source") as [[| | |str| |]|]; simpl in Hsrc; try discriminate Hsrc.
  - rewrite orb_false_r in Hsrc.
    destruct (String.eqb str "ios-contact") eqn:Heq; simpl in Hsrc; [|discriminate Hsrc].
    apply String.eqb_eq in Heq as ->. injection Hsrc as <-. by split; [right|].
  - injection Hsrc as <-. by split; [left|].
Qed.

Lemma z_string_is_string (v : option json) (str : string) :
  z_string v = Some str → is_string v.
Proof. destruct v as [[| | |str'| |]|]; try done. intros _. by exists str'. Qed.

Lemma z_optional_string_is_optional_string (v : option json) (x : option string) :
  z_optional z_string v = Some x → is_optional_string v.
Proof.
  destruct v as [[| | |str| |]|]; try done.
  - intros _. right. by exists str.
  - intros _. by left.
Qed.

Lemma emailSchema_accepts (entry : json) (e : Email.t) :
  emailSchema is_email (Some entry) = Some e → well_formed_email is_email entry.
Proof.
  destruct entry as [| | | | |eo]; try done. unfold emailSchema, z_object, z_string_email.
  destruct (field eo "email") as [[| | |address| |]|] eqn:Haddress; try done. simpl.
  destruct (is_email address) eqn:Hcheck; simpl; [|done].
  destruct (z_string (field eo "label")) as [label|] eqn:Hlabel; simpl; [|done].
  intros _. exists eo, address. repeat split; try done.
  by eapply z_string_is_string.
Qed.

Lemma phoneSchema_accepts (entry : json) (p : Phone.t) :
  phoneSchema (Some entry) = Some p → well_formed_phone entry.
Proof.
  destruct entry as [| | | | |po]; try done. unfold phoneSchema, z_object.
  destruct (z_string (field po "label")) as [label|] eqn:Hlabel; simpl; [|done].
  destruct (z_string (field po "number")) as [number|] eqn:Hnumber; simpl; [|done].
  intros _. exists po. repeat split; try done; by eapply z_string_is_string.
Qed.

Lemma addressSchema_accepts (entry : json) (a : option Address.t) :
  z_optional addressSchema (Some entry) = Some a → well_formed_address entry.
Proof.
  destruct entry as [| | | | |ao]; try done. unfold z_optional at 1, addressSchema, z_object.
  destruct (z_optional z_string (field ao "city")) eqn:Hcity; simpl; [|done].
  destruct (z_optional z_string (field ao "street")) eqn:Hstreet; simpl; [|done].
  destruct (z_optional z_string (field ao "country")) eqn:Hcountry; simpl; [|done].
  destruct (z_optional z_string (field ao "zip")) eqn:Hzip; simpl; [|done].
  destruct (z_optional z_string (field ao "state")) eqn:Hstate; simpl; [|done].
  destruct (z_optional z_string (field ao "label")) eqn:Hlabel; simpl; [|done].
  intros _. exists ao. split; [done|]. intros k Hk. unfold address_keys in Hk.
  repeat (apply elem_of_cons in Hk as [-> | Hk];
          [by eapply z_optional_string_is_optional_string|]).
  by apply elem_of_nil in Hk.
Qed.

Lemma z_array_rejects_malformed {A} (element : ZodType A) (well_formed : json -> Prop)
    (entries : list json) (entry : json) :
  (∀ item a, element (Some item) = Some a → well_formed item) →
  entry ∈ entries → ¬ well_formed entry →
  z_optional (z_array element) (Some (JArray entries)) = None.
Proof.
  intros Haccepts Hin Hbad. unfold z_optional.
  rewrite (z_array_rejects element entries entry Hin); [done|].
  destruct (element (Some entry)) as [a|] eqn:Hentry; [|done].
  destruct Hbad. by eapply Haccepts.
Qed.

Lemma contactSchema_requires_well_formed_entries (o : list (string * json))
    (entries : list json) (entry : json) :
  (field o "emails" = Some (JArray entries) ∧ entry ∈ entries
   ∧ ¬ well_formed_email is_email entry)
  ∨ (field o "phones" = Some (JArray entries) ∧ entry ∈ entries
     ∧ ¬ well_formed_phone entry)
  ∨ (field o "addresses" = Some (JArray entries) ∧ entry ∈ entries
     ∧ ¬ well_formed_address entry) →
  contactSchema is_email (Some (JObject o)) = None.
Proof.
  intros [(Hfield & Hin & Hbad)|[(Hfield & Hin & Hbad)|(Hfield & Hin & Hbad)]].
  - pose proof (z_array_rejects_malformed _ _ _ _ emailSchema_accepts Hin Hbad) as H.
    rewrite <- Hfield in H. by schema_rejects H.
  - pose proof (z_array_rejects_malformed _ _ _ _ phoneSchema_accepts Hin Hbad) as H.
    rewrite <- Hfield in H. by schema_rejects H.
  - pose proof (z_array_rejects_malformed _ _ _ _ addressSchema_accepts Hin Hbad) as H.
    rewrite <- Hfield in H. by schema_rejects H.
Qed.

Lemma contactSchema_requires_arrays (o : list (string * json)) (k : string) (v : json) :
  k ∈ collection_keys → field o k = Some v → (∀ entries, v ≠ JArray entries) →
  contactSchema is_email (Some (JObject o)) = None.
Proof.
  intros Hk Hfield Hv.
  assert (∀ A (element : ZodType A), z_optional (z_array element) (field o k) = None)
    as Hnone.
  { intros A element. rewrite Hfield. destruct v as [| | | |entries|]; try done.
    by destruct (Hv entries). }
  unfold collection_keys in Hk.
  repeat (apply elem_of_cons in Hk as [-> | Hk];
          [first [ by schema_rejects (Hnone _ (emailSchema is_email))
                 | by schema_rejects (Hnone _ phoneSchema)
                 | by schema_rejects (Hnone _ (z_optional addressSchema)) ]|]).
  by apply elem_of_nil in Hk.
Qed.

End Validation.

Section Rejection.

Variable is_email : string -> bool.
Variable ids : DatabaseIds.
Variable env : Bindings.
Context {S : Type} (notion : Client S).

(** C8. When the body of an authorized POST /ios-contact is an array that
    has an element object without a string under "lastName", or an element
    object with a malformed nested entry, the schema rejects the body, the
    request is answered with the validator's failure response (status 400),
    and no call to the store is made.  A malformed nested entry is an entry
    of the element's emails, phones or addresses array that is not
    well-formed: an e-mail entry that is not an object, has no string
    email, has an email that fails the e-mail syntax check, or has no
    string label; a phone entry that is not an object or has no string
    label or no string number; an address entry that is not an object or
    has a sub-field that is present but not a string.  An emails, phones or
    addresses value that is present but not an array is rejected too. *)
Theorem invalid_payload_rejected (req : Request) (items : list json) (s : S) :
  method req = POST →
  pathname req = "/ios-contact" →
  authorization req = Some (PASSWORD env) →
  body req = JArray items →
  (∃ o, JObject o ∈ items
        ∧ ((∀ str, field o "lastName" ≠ Some (JString str))
           ∨ (∃ entries entry,
                 field o "emails" = Some (JArray entries) ∧ entry ∈ entries
                 ∧ ¬ well_formed_email is_email entry)
           ∨ (∃ entries entry,
                 field o "phones" = Some (JArray entries) ∧ entry ∈ entries
                 ∧ ¬ well_formed_phone entry)
           ∨ (∃ entries entry,
                 field o "addresses" = Some (JArray entries) ∧ entry ∈ entries
                 ∧ ¬ well_formed_address entry)
           ∨ (∃ k v, k ∈ collection_keys ∧ field o k = Some v
                     ∧ ∀ entries, v ≠ JArray entries))) →
  schema is_email (Some (body req)) = None
  ∧ fetch is_email ids env notion req s
    = ([], {| status := 400; body_of := SafeParseFailure |}, s).
Proof.
  intros Hm Hp Ha Hb (o & Hin & Hbad).
  assert (schema is_email (Some (body req)) = None) as Hschema.
  { rewrite Hb. unfold schema. apply (z_array_rejects _ _ _ Hin).
    destruct Hbad as [Hlast|[(entries & entry & He)|[(entries & entry & He)
                     |[(entries & entry & He)|(k & v & Hk & Hfield & Hv)]]]].
    - by apply contactSchema_requires_lastName.
    - apply (contactSchema_requires_well_formed_entries is_email o entries entry). auto.
    - apply (contactSchema_requires_well_formed_entries is_email o entries entry). auto.
    - apply (contactSchema_requires_well_formed_entries is_email o entries entry). auto.
    - by eapply contactSchema_requires_arrays. }
  split; [done|].
  unfold fetch, app. rewrite protect_authorized by done.
  unfold route. rewrite Hm, (getPath_ios_contact req Hp). simpl.
  unfold zValidator. by rewrite Hschema.
Qed.

End Rejection.

Lemma invalid_payload_rejected_witness :
  fetch Sample.has_at Sample.ids Sample.env (Sample.scripted (fun _ => []))
    (Sample.post (Some "s3cret")
       (JArray [ JObject [ ("lastName", JString "Doe");
                           ("addresses", JArray [ JObject [ ("city", JNumber 5) ] ]) ] ])) 0
  = ([], {| status := 400; body_of := SafeParseFailure |}, 0).
Proof.
  refine (proj2 (invalid_payload_rejected Sample.has_at Sample.ids Sample.env
                   (Sample.scripted (fun _ => []))
                   (Sample.post (Some "s3cret")
                      (JArray [ JObject [ ("lastName", JString "Doe");
                                          ("addresses",
                                           JArray [ JObject [ ("city", JNumber 5) ] ]) ] ]))
                   [ JObject [ ("lastName", JString "Doe");
                               ("addresses", JArray [ JObject [ ("city", JNumber 5) ] ]) ] ]
                   0 eq_refl eq_refl eq_refl eq_refl _)).
  exists [ ("lastName", JString "Doe");
           ("addresses", JArray [ JObject [ ("city", JNumber 5) ] ]) ].
  split; [by left|].
  right. right. right. left.
  exists [ JObject [ ("city", JNumber 5) ] ], (JObject [ ("city", JNumber 5) ]).
  split; [reflexivity|]. split; [by left|].
  intros (ao & Hentry & Hkeys). injection Hentry as <-.
  destruct (Hkeys "city" ltac:(by left)) as [Habsent|[str Hstring]]; discriminate.
Defined.

(** ** The source tag *)

(** C10. Every element the schema accepts has the source tag "ios-contact":
    the input either has no "source" (the default applies) or has exactly
    that literal, nothing else is admitted.  Hence for every contact of a
    validated payload the property set has a Source select whose name is
    "iOS Contact". *)
Theorem source_select_is_ios_contact (is_email : string -> bool) :
  (∀ o c, contactSchema is_email (Some (JObject o)) = Some c →
          (field o "source" = None ∨ field o "source" = Some (JString "ios-contact"))
          ∧ source c = "ios-contact")
  ∧ (∀ body valid c oid,
        schema is_email (Some body) = Some valid → c ∈ valid →
        source c = "ios-contact"
        ∧ properties c oid !! "Source" = Some (PSelect "iOS Contact")).
Proof.
  split; [apply contactSchema_source|].
  intros body valid c oid Hvalid Hc.
  destruct (z_array_accepts _ _ _ _ Hvalid Hc) as [item Hitem].
  assert (source c = "ios-contact") as Hsource.
  { destruct item as [| | | | |o]; try discriminate Hitem.
    by apply contactSchema_source in Hitem as [_ ?]. }
  split; [done|].
  destruct (property_set_fields_organization c oid) as [_ ->]. by rewrite Hsource.
Qed.

Lemma source_select_is_ios_contact_witness :
  properties Sample.jane None !! "Source" = Some (PSelect "iOS Contact").
Proof.
  refine (proj2 (proj2 (source_select_is_ios_contact Sample.has_at)
                   Sample.jane_json [Sample.jane] Sample.jane None eq_refl _)).
  by left.
Defined.

(** ** The contact upsert *)

Section Upsert.

Variable is_email : string -> bool.
Variable ids : DatabaseIds.
Variable env : Bindings.
Context {S : Type} (notion : Client S).

Lemma run_upsert (c : Contact) (props : gmap string PropertyValue) (s : S) :
  run notion (upsert ids c props) s =
    answer (Query (contacts ids) (contact_filter c))
      (on_query notion (contacts ids) (contact_filter c) s)
      (fun results s1 =>
         match results with
         | [] =>
             answer (Create (contacts ids) props)
               (on_create notion (contacts ids) props s1)
               (fun created s2 =>
                  ([], inr (c_json [ ("message", Some "Successfully created contact");
                                     ("pageId", Some (Page.id created));
                                     ("firstName", firstName c);
                                     ("lastName", Some (lastName c)) ] 201), s2))
         | first :: _ =>
             answer (Update (Page.id first) props)
               (on_update notion (Page.id first) props s1)
               (fun updated s2 =>
                  ([], inr (c_json [ ("message", Some "Successfully updated contact");
                                     ("firstName", firstName c);
                                     ("lastName", Some (lastName c));
                                     ("pageId", Some (Page.id updated)) ] 200), s2))
         end).
Proof.
  unfold upsert. unfold_notion. fold (contact_filter c). unfold answer.
  destruct (on_query notion (contacts ids) (contact_filter c) s) as [[e|results] s1];
    [done|].
  destruct results as [|first others]; simpl.
  - by destruct (on_create notion (contacts ids) props s1) as [[e|created] s2].
  - by destruct (on_update notion (Page.id first) props s1) as [[e|updated] s2].
Qed.

Lemma fetch_ios_contact (req : Request) (valid : list Contact) (s : S) :
  method req = POST →
  pathname req = "/ios-contact" →
  authorization req = Some (PASSWORD env) →
  schema is_email (Some (body req)) = Some valid →
  fetch is_email ids env notion req s =
    let '(calls, result, s') := run notion (handler ids valid) s in
    (calls, match result with inl e => onError e | inr r => r end, s').
Proof.
  intros Hm Hp Ha Hv. unfold fetch, app. rewrite protect_authorized by done.
  unfold route. rewrite Hm, (getPath_ios_contact req Hp). simpl.
  unfold zValidator. by rewrite Hv.
Qed.

(** C1. For an authorized POST /ios-contact whose body validates, the
    first contact of the payload is processed: once the organization has
    been resolved, the contacts collection is queried with the conjunction
    of "Last Name equals lastName" and "First Name equals firstName", the
    latter with the empty string when firstName is absent.  If the query
    answers with no record, a contact is created with the full property
    set and the response is 201 with message "Successfully created
    contact", the created record's id as pageId, firstName and lastName.
    If it answers with one or more records, only the first is updated,
    with the full property set, and the response is 200 with message
    "Successfully updated contact", firstName, lastName and, as pageId,
    the id of the record the store returns from the update, which is the
    first result's id for a store that returns the record it updated. *)
Theorem contact_upsert (req : Request) (c : Contact) (rest : list Contact) (s : S)
    (calls0 : list Call) (oid : option string) (s0 : S) :
  method req = POST →
  pathname req = "/ios-contact" →
  authorization req = Some (PASSWORD env) →
  schema is_email (Some (body req)) = Some (c :: rest) →
  run notion (organizationId ids c) s = (calls0, inr oid, s0) →
  let lookup :=
    And [ title_equals "Last Name" (lastName c);
          rich_text_equals "First Name"
            (match firstName c with Some first => first | None => "" end) ] in
  let props := properties c oid in
  (∀ s1 created s2,
      on_query notion (contacts ids) lookup s0 = (inr [], s1) →
      on_create notion (contacts ids) props s1 = (inr created, s2) →
      fetch is_email ids env notion req s
      = (calls0 ++ [Query (contacts ids) lookup; Create (contacts ids) props],
         {| status := 201;
            body_of := Json [ ("message", Some "Successfully created contact");
                              ("pageId", Some (Page.id created));
                              ("firstName", firstName c);
                              ("lastName", Some (lastName c)) ] |},
         s2))
  ∧ (∀ first others s1 updated s2,
      on_query notion (contacts ids) lookup s0 = (inr (first :: others), s1) →
      on_update notion (Page.id first) props s1 = (inr updated, s2) →
      Page.id updated = Page.id first →
      fetch is_email ids env notion req s
      = (calls0 ++ [Query (contacts ids) lookup; Update (Page.id first) props],
         {| status := 200;
            body_of := Json [ ("message", Some "Successfully updated contact");
                              ("firstName", firstName c);
                              ("lastName", Some (lastName c));
                              ("pageId", Some (Page.id first)) ] |},
         s2)).
Proof.
  intros Hm Hp Ha Hv Horg. cbv zeta.
  change (And _) with (contact_filter c).
  rewrite (fetch_ios_contact req (c :: rest) s Hm Hp Ha Hv).
  change (handler ids (c :: rest))
    with (organizationId ids c ≫= fun oid => upsert ids c (properties c oid)).
  rewrite run_bind, Horg, run_upsert.
  split.
  - intros s1 created s2 Hq Hc. rewrite Hq. simpl. by rewrite Hc.
  - intros first others s1 updated s2 Hq Hu Hid. rewrite Hq. simpl. rewrite Hu. simpl.
    by rewrite Hid.
Qed.

End Upsert.

Lemma contact_upsert_witness :
  fetch Sample.has_at Sample.ids Sample.env (Sample.scripted Sample.existing)
    (Sample.post (Some "s3cret") Sample.jane_json) 0
  = ([ Query "orgs-db" (Single (title_equals "Name" "Acme"));
       Create "orgs-db" {[ "Name" := PTitle "Acme" ]} ]
     ++ [ Query "contacts-db"
            (And [ title_equals "Last Name" "Doe"; rich_text_equals "First Name" "Jane" ]);
          Update "abc123" (properties Sample.jane (Some "new-0")) ],
     {| status := 200;
        body_of := Json [ ("message", Some "Successfully updated contact");
                          ("firstName", Some "Jane");
                          ("lastName", Some "Doe");
                          ("pageId", Some "abc123") ] |},
     1).
Proof.
  refine (proj2 (contact_upsert Sample.has_at Sample.ids Sample.env
                   (Sample.scripted Sample.existing)
                   (Sample.post (Some "s3cret") Sample.jane_json)
                   Sample.jane [] 0
                   [ Query "orgs-db" (Single (title_equals "Name" "Acme"));
                     Create "orgs-db" {[ "Name" := PTitle "Acme" ]} ]
                   (Some "new-0") 1
                   eq_refl eq_refl eq_refl _ _)
            {| Page.id := "abc123" |} [ {| Page.id := "def456" |} ] 1
            {| Page.id := "abc123" |} 1 _ _ eq_refl);
    vm_compute; reflexivity.
Defined.

(** * Further properties of the service *)

(** ** Every run of the handler, case by case *)

Ltac configured_calls :=
  repeat (apply List.Forall_cons; [simpl; first [by left | by right | done]|]);
  apply List.Forall_nil.

Section Runs.

Variable ids : DatabaseIds.
Context {S : Type} (notion : Client S).

Lemma run_handler_cons (c : Contact) (rest : list Contact) (s : S) :
  run notion (handler ids (c :: rest)) s =
    match run notion (organizationId ids c) s with
    | (calls, inl e, s') => (calls, inl e, s')
    | (calls, inr oid, s') =>
        let '(calls', r, s'') := run notion (upsert ids c (properties c oid)) s' in
        (calls ++ calls', r, s'')
    end.
Proof.
  change (handler ids (c :: rest))
    with (organizationId ids c ≫= fun oid => upsert ids c (properties c oid)).
  apply run_bind.
Qed.

Lemma run_organizationId (c : Contact) (s : S) :
  run notion (organizationId ids c) s =
    match nonempty (organization c) with
    | None => ([], inr None, s)
    | Some name =>
        answer (Query (organizations ids) (Single (title_equals "Name" name)))
          (on_query notion (organizations ids) (Single (title_equals "Name" name)) s)
          (fun results s1 =>
             match head results with
             | Some found => ([], inr (Some (Page.id found)), s1)
             | None =>
                 answer (Create (organizations ids) {[ "Name" := PTitle name ]})
                   (on_create notion (organizations ids) {[ "Name" := PTitle name ]} s1)
                   (fun created s2 => ([], inr (Some (Page.id created)), s2))
             end)
    end.
Proof.
  unfold organizationId, nonempty. destruct (organization c) as [name|]; simpl; [|done].
  rewrite truthy_string. destruct (decide (name = "")) as [->|Hne]; [done|].
  rewrite bool_decide_eq_true_2 by done. unfold_notion. unfold answer.
  destruct (on_query notion _ _ s) as [[e|results] s1]; [done|].
  destruct results as [|found others]; simpl; [|done].
  by destruct (on_create notion _ _ s1) as [[e|created] s2].
Qed.

(** What a run of the resolver can look like. *)
Lemma run_organizationId_shape (c : Contact) (s : S) :
  (List.length (run notion (organizationId ids c) s).1.1 ≤ 2)%nat
  ∧ Forall (addresses_configured ids) (run notion (organizationId ids c) s).1.1.
Proof.
  rewrite run_organizationId. destruct (nonempty (organization c)) as [name|]; simpl.
  - unfold answer. destruct (on_query notion _ _ s) as [[e|results] s1]; simpl.
    { split; [lia|configured_calls]. }
    destruct (head results) as [found|]; simpl.
    { split; [lia|configured_calls]. }
    destruct (on_create notion _ _ s1) as [[e|created] s2]; simpl;
      (split; [lia|configured_calls]).
  - split; [lia|configured_calls].
Qed.

(** What a run of the contact lookup and write can look like. *)
Lemma run_upsert_shape (c : Contact) (props : gmap string PropertyValue) (s : S) :
  (List.length (run notion (upsert ids c props) s).1.1 ≤ 2)%nat
  ∧ Forall (addresses_configured ids) (run notion (upsert ids c props) s).1.1
  ∧ ∀ response, (run notion (upsert ids c props) s).1.2 = inr response →
                status response = 201 ∨ status response = 200.
Proof.
  rewrite run_upsert. unfold answer.
  destruct (on_query notion _ _ s) as [[e|results] s1]; simpl.
  { split; [lia|]. split; [configured_calls|done]. }
  destruct results as [|first others]; simpl.
  - destruct (on_create notion _ _ s1) as [[e|created] s2]; simpl;
      (split; [lia|]); (split; [configured_calls|]); [done|].
    intros response [= <-]. by left.
  - destruct (on_update notion _ _ s1) as [[e|updated] s2]; simpl;
      (split; [lia|]); (split; [configured_calls|]); [done|].
    intros response [= <-]. by right.
Qed.

Lemma run_handler_shape (valid : list Contact) (s : S) :
  (List.length (run notion (handler ids valid) s).1.1 ≤ 4)%nat
  ∧ Forall (addresses_configured ids) (run notion (handler ids valid) s).1.1
  ∧ ∀ response, (run notion (handler ids valid) s).1.2 = inr response →
                status response = 201 ∨ status response = 200.
Proof.
  destruct valid as [|c rest]; [simpl; split; [lia|]; split; [configured_calls|done]|].
  rewrite run_handler_cons.
  destruct (run_organizationId_shape c s) as [Hlen Hall].
  destruct (run notion (organizationId ids c) s) as [[calls [e|oid]] s0];
    simpl in Hlen, Hall.
  { simpl. split; [lia|]. by split. }
  destruct (run_upsert_shape c (properties c oid) s0) as (Hlen' & Hall' & Hstatus).
  destruct (run notion (upsert ids c (properties c oid)) s0) as [[calls' r] s1]; simpl in *.
  split; [rewrite List.length_app; lia|]. split; [by apply Forall_app|done].
Qed.

End Runs.

(** ** What every request gets, and what it can cause *)

Lemma onError_status (error : Error) :
  status (onError error) = 401 ∨ status (onError error) = 500.
Proof. destruct error as [[[]|[]] message|name message]; simpl; auto. Qed.

Ltac one_of_statuses := unfold statuses; simpl; repeat constructor.

Section Service.

Variable is_email : string -> bool.
Variable ids : DatabaseIds.
Variable env : Bindings.
Context {S : Type} (notion : Client S).

Lemma public_prefix_is_not_ios_contact (path : string) :
  String.prefix "/public" path = true → decode_path path ≠ "/ios-contact".
Proof.
  destruct path as [|c0 [|c1 path]]; cbn [String.prefix]; try done.
  { by destruct (ascii_dec "/" c0). }
  destruct (ascii_dec "/" c0) as [<-|]; [|done].
  destruct (ascii_dec "p" c1) as [<-|]; [|done].
  intros _. simpl. discriminate.
Qed.

Lemma fetch_post (req : Request) (valid : list Contact) (s : S) :
  method req = POST →
  getPath req = "/ios-contact" →
  authorization req = Some (PASSWORD env) →
  schema is_email (Some (body req)) = Some valid →
  fetch is_email ids env notion req s =
    let '(calls, result, s') := run notion (handler ids valid) s in
    (calls, match result with inl e => onError e | inr r => r end, s').
Proof.
  intros Hm Hp Ha Hv. unfold fetch, app. rewrite protect_authorized by done.
  unfold route. rewrite Hm, Hp. simpl. unfold zValidator. by rewrite Hv.
Qed.

(** Either the request is answered without the handler being entered, or
    it is an authorized POST whose decoded path is /ios-contact and whose
    body validates to a non-empty array. *)
Lemma fetch_cases (req : Request) (s : S) :
  (∃ response, fetch is_email ids env notion req s = ([], response, s)
               ∧ status response ∈ statuses)
  ∨ (method req = POST
     ∧ getPath req = "/ios-contact"
     ∧ authorization req = Some (PASSWORD env)
     ∧ ∃ c rest, schema is_email (Some (body req)) = Some (c :: rest)).
Proof.
  assert (∀ response : Response,
            status response ∈ statuses →
            ∃ response', ([] : list Call, response, s) = ([], response', s)
                         ∧ status response' ∈ statuses) as Hanswered by eauto.
  unfold fetch, app, protect.
  destruct (String.prefix "/public" (pathname req)) eqn:Hprefix.
  - left. unfold route. destruct (method req);
      try (simpl; apply Hanswered; one_of_statuses).
    + destruct (String.eqb (getPath req) "/public"); simpl;
        apply Hanswered; one_of_statuses.
    + destruct (String.eqb (getPath req) "/ios-contact") eqn:Hpath.
      { apply String.eqb_eq in Hpath.
        by destruct (public_prefix_is_not_ios_contact _ Hprefix). }
      simpl. apply Hanswered; one_of_statuses.
    + destruct (String.eqb (getPath req) "/public"); simpl;
        apply Hanswered; one_of_statuses.
  - destruct (bool_decide (authorization req = Some (PASSWORD env))) eqn:Hauth; simpl.
    2: { left. apply Hanswered; one_of_statuses. }
    apply bool_decide_eq_true in Hauth.
    unfold route. destruct (method req) eqn:Hmethod;
      try (left; simpl; apply Hanswered; one_of_statuses).
    + left. destruct (String.eqb (getPath req) "/public"); simpl;
        apply Hanswered; one_of_statuses.
    + destruct (String.eqb (getPath req) "/ios-contact") eqn:Hpath.
      2: { left. simpl. apply Hanswered; one_of_statuses. }
      apply String.eqb_eq in Hpath. unfold zValidator.
      destruct (schema is_email (Some (body req))) as [[|c rest]|] eqn:Hschema.
      * left. simpl. apply Hanswered; one_of_statuses.
      * right. eauto 10.
      * left. simpl. apply Hanswered; one_of_statuses.
    + left. destruct (String.eqb (getPath req) "/public"); simpl;
        apply Hanswered; one_of_statuses.
Qed.

(** X1. The store is called only on behalf of an authorized POST whose
    path the router reads as /ios-contact and whose body validates to a
    non-empty array: a request that causes any call has that method, a URL
    path that percent-decodes to /ios-contact (so one that does not start
    with the public prefix), the configured secret as its Authorization
    header, and such a body. *)
Theorem store_calls_need_authorized_post (req : Request) (s : S) :
  (fetch is_email ids env notion req s).1.1 ≠ [] →
  method req = POST
  ∧ getPath req = "/ios-contact"
  ∧ String.prefix "/public" (pathname req) = false
  ∧ authorization req = Some (PASSWORD env)
  ∧ ∃ c rest, schema is_email (Some (body req)) = Some (c :: rest).
Proof.
  intros Hcalls.
  destruct (fetch_cases req s) as [(response & Hfetch & _)|(Hm & Hp & Ha & Hv)].
  { rewrite Hfetch in Hcalls. by destruct Hcalls. }
  repeat split; try done.
  destruct (String.prefix "/public" (pathname req)) eqn:Hprefix; [|done].
  by destruct (public_prefix_is_not_ios_contact _ Hprefix).
Qed.

(** X2. Whatever the request and however the store behaves, the status of
    the response is one of 200, 201, 400, 401, 404 and 500. *)
Theorem response_status_is_known (req : Request) (s : S) :
  status (fetch is_email ids env notion req s).1.2 ∈ statuses.
Proof.
  destruct (fetch_cases req s) as [(response & -> & Hstatus)|(Hm & Hp & Ha & c & rest & Hv)];
    [done|].
  rewrite (fetch_post req (c :: rest) s Hm Hp Ha Hv).
  destruct (run_handler_shape ids notion (c :: rest) s) as (_ & _ & Hresponse).
  destruct (run notion (handler ids (c :: rest)) s) as [[calls [e|response]] s'];
    simpl in *.
  - destruct (onError_status e) as [-> | ->]; one_of_statuses.
  - destruct (Hresponse response eq_refl) as [-> | ->]; one_of_statuses.
Qed.

(** X3. One request causes at most four calls to the store, and every query
    and every creation among them addresses the organizations database or
    the contacts database. *)
Theorem store_calls_are_bounded (req : Request) (s : S) :
  (List.length (fetch is_email ids env notion req s).1.1 ≤ 4)%nat
  ∧ Forall (addresses_configured ids) (fetch is_email ids env notion req s).1.1.
Proof.
  destruct (fetch_cases req s) as [(response & -> & _)|(Hm & Hp & Ha & c & rest & Hv)].
  { simpl. split; [lia|constructor]. }
  rewrite (fetch_post req (c :: rest) s Hm Hp Ha Hv).
  destruct (run_handler_shape ids notion (c :: rest) s) as (Hlen & Hall & _).
  by destruct (run notion (handler ids (c :: rest)) s) as [[calls result] s'].
Qed.

End Service.

Lemma store_calls_need_authorized_post_witness :
  getPath (Sample.escaped_post (Some "s3cret") Sample.jane_json) = "/ios-contact".
Proof.
  refine (proj1 (proj2 (store_calls_need_authorized_post Sample.has_at Sample.ids
            Sample.env (Sample.scripted Sample.existing)
            (Sample.escaped_post (Some "s3cret") Sample.jane_json) 0 _))).
  vm_compute. discriminate.
Defined.

(** ** Failures of the store *)

Section Failures.

Variable is_email : string -> bool.
Variable ids : DatabaseIds.
Variable env : Bindings.
Context {S : Type} (notion : Client S).

(** X4. A call the store rejects is the last call of the request, and the
    response is the error translator's answer to that error: nothing is
    retried, and no contact is looked up or written after a failed
    organization query or creation, nor written after a failed contact
    query. *)
Theorem store_failure_ends_the_request (req : Request) (c : Contact)
    (rest : list Contact) (s : S) :
  method req = POST →
  pathname req = "/ios-contact" →
  authorization req = Some (PASSWORD env) →
  schema is_email (Some (body req)) = Some (c :: rest) →
  (∀ name e s1,
      nonempty (organization c) = Some name →
      on_query notion (organizations ids) (Single (title_equals "Name" name)) s
      = (inl e, s1) →
      fetch is_email ids env notion req s
      = ([Query (organizations ids) (Single (title_equals "Name" name))], onError e, s1))
  ∧ (∀ name s1 e s2,
      nonempty (organization c) = Some name →
      on_query notion (organizations ids) (Single (title_equals "Name" name)) s
      = (inr [], s1) →
      on_create notion (organizations ids) {[ "Name" := PTitle name ]} s1 = (inl e, s2) →
      fetch is_email ids env notion req s
      = ([ Query (organizations ids) (Single (title_equals "Name" name));
           Create (organizations ids) {[ "Name" := PTitle name ]} ], onError e, s2))
  ∧ (∀ calls0 oid s0 e s1,
      run notion (organizationId ids c) s = (calls0, inr oid, s0) →
      on_query notion (contacts ids) (contact_filter c) s0 = (inl e, s1) →
      fetch is_email ids env notion req s
      = (calls0 ++ [Query (contacts ids) (contact_filter c)], onError e, s1))
  ∧ (∀ calls0 oid s0 s1 e s2,
      run notion (organizationId ids c) s = (calls0, inr oid, s0) →
      on_query notion (contacts ids) (contact_filter c) s0 = (inr [], s1) →
      on_create notion (contacts ids) (properties c oid) s1 = (inl e, s2) →
      fetch is_email ids env notion req s
      = (calls0 ++ [ Query (contacts ids) (contact_filter c);
                     Create (contacts ids) (properties c oid) ], onError e, s2))
  ∧ (∀ calls0 oid s0 first others s1 e s2,
      run notion (organizationId ids c) s = (calls0, inr oid, s0) →
      on_query notion (contacts ids) (contact_filter c) s0 = (inr (first :: others), s1) →
      on_update notion (Page.id first) (properties c oid) s1 = (inl e, s2) →
      fetch is_email ids env notion req s
      = (calls0 ++ [ Query (contacts ids) (contact_filter c);
                     Update (Page.id first) (properties c oid) ], onError e, s2)).
Proof.
  intros Hm Hp Ha Hv.
  rewrite (fetch_ios_contact is_email ids env notion req (c :: rest) s Hm Hp Ha Hv).
  rewrite run_handler_cons.
  split; [|split; [|split; [|split]]].
  - intros name e s1 Hname Hq. rewrite run_organizationId, Hname, Hq. done.
  - intros name s1 e s2 Hname Hq Hc. rewrite run_organizationId, Hname, Hq. simpl.
    by rewrite Hc.
  - intros calls0 oid s0 e s1 Horg Hq. by rewrite Horg, run_upsert, Hq.
  - intros calls0 oid s0 s1 e s2 Horg Hq Hc. rewrite Horg, run_upsert, Hq. simpl.
    by rewrite Hc.
  - intros calls0 oid s0 first others s1 e s2 Horg Hq Hu.
    rewrite Horg, run_upsert, Hq. simpl. by rewrite Hu.
Qed.

End Failures.

Lemma store_failure_ends_the_request_witness :
  fetch Sample.has_at Sample.ids Sample.env
    (Sample.failing (NotionClientError (inl RateLimited) "slow down"))
    (Sample.post (Some "s3cret") Sample.jane_json) ()
  = ([Query "orgs-db" (Single (title_equals "Name" "Acme"))],
     {| status := 500; body_of := Json [("message", Some "An error occurred")] |}, ()).
Proof.
  exact (proj1 (store_failure_ends_the_request Sample.has_at Sample.ids Sample.env
                  (Sample.failing (NotionClientError (inl RateLimited) "slow down"))
                  (Sample.post (Some "s3cret") Sample.jane_json) Sample.jane [] ()
                  eq_refl eq_refl eq_refl eq_refl)
           "Acme" (NotionClientError (inl RateLimited) "slow down") () eq_refl eq_refl).
Defined.

(** ** Batches *)

Lemma z_array_cons {A} (element : ZodType A) (item : json) (items : list json)
    (parsed : list A) :
  z_array element (Some (JArray (item :: items))) = Some parsed →
  ∃ a rest, parsed = a :: rest
            ∧ element (Some item) = Some a
            ∧ z_array element (Some (JArray items)) = Some rest.
Proof.
  unfold z_array. intros Hm. apply mapM_Some_1 in Hm.
  destruct parsed as [|a rest]; inversion Hm as [|? ? ? ? Hitem Hrest]; subst.
  exists a, rest. split; [done|]. split; [done|]. by apply mapM_Some_2.
Qed.

Section Batches.

Variable is_email : string -> bool.
Variable ids : DatabaseIds.
Variable env : Bindings.
Context {S : Type} (notion : Client S).

(** X5. Only the first element of a valid body is processed: a request
    whose body is an array that validates gets the same calls, the same
    response and the same final store state as the same request carrying
    only the first element of that array. *)
Theorem only_first_element_is_processed (req : Request) (item : json)
    (items : list json) (valid : list Contact) (s : S) :
  body req = JArray (item :: items) →
  schema is_email (Some (body req)) = Some valid →
  fetch is_email ids env notion req s
  = fetch is_email ids env notion
      {| method := method req; pathname := pathname req;
         authorization := authorization req; body := JArray [item] |} s.
Proof.
  intros Hbody Hall. rewrite Hbody in Hall.
  destruct (z_array_cons _ _ _ _ Hall) as (c & rest & -> & Hitem & _).
  assert (schema is_email (Some (JArray [item])) = Some [c]) as Hone.
  { unfold schema, z_array. apply mapM_Some_2. by repeat constructor. }
  unfold fetch, app, protect, route. simpl. rewrite Hbody.
  unfold zValidator. by rewrite Hone, Hall.
Qed.

End Batches.

Lemma only_first_element_is_processed_witness :
  fetch Sample.has_at Sample.ids Sample.env (Sample.scripted Sample.existing)
    (Sample.post (Some "s3cret") Sample.batch) 0
  = fetch Sample.has_at Sample.ids Sample.env (Sample.scripted Sample.existing)
      (Sample.post (Some "s3cret") (JArray [Sample.doe_object])) 0.
Proof.
  refine (only_first_element_is_processed Sample.has_at Sample.ids Sample.env
            (Sample.scripted Sample.existing)
            (Sample.post (Some "s3cret") Sample.batch)
            Sample.doe_object _
            (default [] (schema Sample.has_at (Some Sample.batch))) 0 eq_refl _).
  vm_compute. reflexivity.
Defined.

(** ** Address selection *)

Lemma address_label_is_Some (l : string) (a : Address.t) :
  address_label_is l (Some a) = true ↔ Address.label a = Some l.
Proof.
  unfold address_label_is. simpl. destruct (Address.label a) as [l'|].
  - rewrite String.eqb_eq. split; [by intros ->|by intros [= ->]].
  - split; discriminate.
Qed.

Lemma address_label_is_false (l : string) (x : option Address.t) :
  (∀ a, x = Some a → Address.label a ≠ Some l) → address_label_is l x = false.
Proof.
  intros Hx. destruct x as [a|]; [|done].
  destruct (address_label_is l (Some a)) eqn:Hl; [|done].
  apply address_label_is_Some in Hl. by destruct (Hx a eq_refl).
Qed.

Lemma first_labelled_address (l : string) (before : list (option Address.t))
    (a : Address.t) (after : list (option Address.t)) :
  Address.label a = Some l →
  (∀ a', Some a' ∈ before → Address.label a' ≠ Some l) →
  mjoin (filter0 (address_label_is l) (Some (before ++ Some a :: after))) = Some a.
Proof.
  intros Ha Hbefore. unfold filter0. simpl.
  rewrite head_filter_first; [done|by apply address_label_is_Some|].
  intros x Hx. apply address_label_is_false. intros a' ->. by apply Hbefore.
Qed.

Lemma no_labelled_address (l : string) (arr : option (list (option Address.t))) :
  (∀ entries a', arr = Some entries → Some a' ∈ entries → Address.label a' ≠ Some l) →
  mjoin (filter0 (address_label_is l) arr) = None.
Proof.
  intros Hnone. destruct arr as [entries|]; [|done]. unfold filter0. simpl.
  rewrite head_filter_none; [done|].
  intros x Hx. apply address_label_is_false. intros a' ->. by eapply Hnone.
Qed.

(** X6. The work address is the first element of the addresses array, in
    array order, whose label is "Work", and the home address the first whose
    label is "Home"; elements without a label never match.  When the array
    is absent or has no element with the label, nothing is selected, the
    display string is empty and the property set has no field for that
    address. *)
Theorem address_selection_is_first_match (c : Contact) :
  (∀ before a after,
      addresses c = Some (before ++ Some a :: after) →
      Address.label a = Some "Work" →
      (∀ a', Some a' ∈ before → Address.label a' ≠ Some "Work") →
      workAddressData c = Some a)
  ∧ (∀ before a after,
      addresses c = Some (before ++ Some a :: after) →
      Address.label a = Some "Home" →
      (∀ a', Some a' ∈ before → Address.label a' ≠ Some "Home") →
      homeAddressData c = Some a)
  ∧ ((∀ entries a', addresses c = Some entries → Some a' ∈ entries →
                    Address.label a' ≠ Some "Work") →
     workAddressData c = None ∧ workAddress c = ""
     ∧ ∀ oid, properties c oid !! "Address (Work)" = None)
  ∧ ((∀ entries a', addresses c = Some entries → Some a' ∈ entries →
                    Address.label a' ≠ Some "Home") →
     homeAddressData c = None ∧ homeAddress c = ""
     ∧ ∀ oid, properties c oid !! "Address (Home)" = None).
Proof.
  split; [|split; [|split]].
  - intros before a after Hc Ha Hbefore. unfold workAddressData. rewrite Hc.
    by apply first_labelled_address.
  - intros before a after Hc Ha Hbefore. unfold homeAddressData. rewrite Hc.
    by apply first_labelled_address.
  - intros Hnone. apply no_labelled_address in Hnone.
    assert (workAddressData c = None) as Hdata by done.
    split; [done|]. split; [by unfold workAddress; rewrite Hdata|].
    intros oid. lookup_properties. by rewrite Hdata.
  - intros Hnone. apply no_labelled_address in Hnone.
    assert (homeAddressData c = None) as Hdata by done.
    split; [done|]. split; [by unfold homeAddress; rewrite Hdata|].
    intros oid. lookup_properties. by rewrite Hdata.
Qed.

Lemma address_selection_is_first_match_witness :
  workAddressData Sample.jane = Some Sample.paris.
Proof.
  refine (proj1 (address_selection_is_first_match Sample.jane)
            [] Sample.paris [] eq_refl eq_refl _).
  intros a' Ha'. inversion Ha'.
Defined.

(** ** More ways to fail validation *)

Section Malformed.

Variable is_email : string -> bool.

Lemma z_string_rejects (v : json) :
  (∀ str, v ≠ JString str) → z_optional z_string (Some v) = None.
Proof. intros Hv. destruct v as [| | |str| |]; try done. by destruct (Hv str). Qed.

Lemma contactSchema_requires_strings (o : list (string * json)) (k : string) (v : json) :
  k ∈ optional_string_keys → field o k = Some v → (∀ str, v ≠ JString str) →
  contactSchema is_email (Some (JObject o)) = None.
Proof.
  intros Hk Hfield Hv. apply z_string_rejects in Hv. rewrite <- Hfield in Hv.
  unfold optional_string_keys in Hk.
  repeat (apply elem_of_cons in Hk as [-> | Hk]; [by schema_rejects Hv|]).
  by apply elem_of_nil in Hk.
Qed.

Lemma contactSchema_requires_source (o : list (string * json)) (v : json) :
  field o "source" = Some v → v ≠ JString "ios-contact" →
  contactSchema is_email (Some (JObject o)) = None.
Proof.
  intros Hfield Hv.
  assert (z_default (z_optional (z_enum ["ios-contact"])) (JString "ios-contact")
            (field o "source") = None) as Hsource.
  { rewrite Hfield. destruct v as [| | |str| |]; try done.
    unfold z_default, z_optional, z_enum. simpl. rewrite orb_false_r.
    destruct (String.eqb str "ios-contact") eqn:Heq; [|done].
    apply String.eqb_eq in Heq as ->. by destruct Hv. }
  by schema_rejects Hsource.
Qed.

Lemma phoneSchema_requires_strings (po : list (string * json)) :
  (∀ str, field po "label" ≠ Some (JString str))
  ∨ (∀ str, field po "number" ≠ Some (JString str)) →
  phoneSchema (Some (JObject po)) = None.
Proof.
  unfold phoneSchema, z_object. intros [Hlabel|Hnumber].
  - destruct (field po "label") as [[| | |str| |]|]; try done. by destruct (Hlabel str).
  - destruct (z_string (field po "label")); simpl; [|done].
    destruct (field po "number") as [[| | |str| |]|]; try done. by destruct (Hnumber str).
Qed.

Lemma contactSchema_requires_phone_strings (o : list (string * json))
    (entries : list json) (po : list (string * json)) :
  field o "phones" = Some (JArray entries) →
  JObject po ∈ entries →
  (∀ str, field po "label" ≠ Some (JString str))
  ∨ (∀ str, field po "number" ≠ Some (JString str)) →
  contactSchema is_email (Some (JObject o)) = None.
Proof.
  intros Hphones Hin Hbad.
  assert (z_optional (z_array phoneSchema) (field o "phones") = None) as Hp.
  { rewrite Hphones. unfold z_optional.
    by rewrite (z_array_rejects _ _ _ Hin (phoneSchema_requires_strings _ Hbad)). }
  by schema_rejects Hp.
Qed.

Lemma contactSchema_requires_object (item : json) :
  (∀ o, item ≠ JObject o) → contactSchema is_email (Some item) = None.
Proof. intros Hitem. destruct item as [| | | | |o]; try done. by destruct (Hitem o). Qed.

Variable ids : DatabaseIds.
Variable env : Bindings.
Context {S : Type} (notion : Client S).

Lemma fetch_rejects (req : Request) (s : S) :
  method req = POST →
  pathname req = "/ios-contact" →
  authorization req = Some (PASSWORD env) →
  schema is_email (Some (body req)) = None →
  fetch is_email ids env notion req s
  = ([], {| status := 400; body_of := SafeParseFailure |}, s).
Proof.
  intros Hm Hp Ha Hschema. unfold fetch, app. rewrite protect_authorized by done.
  unfold route. rewrite Hm, (getPath_ios_contact req Hp). simpl.
  unfold zValidator. by rewrite Hschema.
Qed.

(** X7. An authorized POST /ios-contact is answered with the validator's
    failure response (status 400), without any call to the store, when its
    body is not an array, or is an array with an element that is not an
    object, or with an element object in which firstName, organization,
    note, website or jobTitle is present but not a string (null included),
    or in which source is present but not the string "ios-contact", or
    whose phones array has an entry object without a string label or
    without a string number. *)
Theorem malformed_payload_rejected (req : Request) (s : S) :
  method req = POST →
  pathname req = "/ios-contact" →
  authorization req = Some (PASSWORD env) →
  (∀ items, body req ≠ JArray items)
  ∨ (∃ items item, body req = JArray items ∧ item ∈ items ∧ ∀ o, item ≠ JObject o)
  ∨ (∃ items o k v,
        body req = JArray items ∧ JObject o ∈ items
        ∧ k ∈ optional_string_keys ∧ field o k = Some v ∧ ∀ str, v ≠ JString str)
  ∨ (∃ items o v,
        body req = JArray items ∧ JObject o ∈ items
        ∧ field o "source" = Some v ∧ v ≠ JString "ios-contact")
  ∨ (∃ items o entries po,
        body req = JArray items ∧ JObject o ∈ items
        ∧ field o "phones" = Some (JArray entries) ∧ JObject po ∈ entries
        ∧ ((∀ str, field po "label" ≠ Some (JString str))
           ∨ (∀ str, field po "number" ≠ Some (JString str)))) →
  fetch is_email ids env notion req s
  = ([], {| status := 400; body_of := SafeParseFailure |}, s).
Proof.
  intros Hm Hp Ha Hbad. apply fetch_rejects; try done.
  destruct Hbad as [Hbody|[(items & item & Hbody & Hin & Hitem)
                   |[(items & o & k & v & Hbody & Hin & Hk & Hfield & Hv)
                   |[(items & o & v & Hbody & Hin & Hfield & Hv)
                   |(items & o & entries & po & Hbody & Hin & Hphones & Hentry & Hpo)]]]].
  - unfold schema, z_array. destruct (body req) as [| | | |items|]; try done.
    by destruct (Hbody items).
  - rewrite Hbody. apply (z_array_rejects _ _ _ Hin).
    by apply contactSchema_requires_object.
  - rewrite Hbody. apply (z_array_rejects _ _ _ Hin).
    by eapply contactSchema_requires_strings.
  - rewrite Hbody. apply (z_array_rejects _ _ _ Hin).
    by eapply contactSchema_requires_source.
  - rewrite Hbody. apply (z_array_rejects _ _ _ Hin).
    by eapply contactSchema_requires_phone_strings.
Qed.

End Malformed.

Lemma malformed_payload_rejected_witness :
  fetch Sample.has_at Sample.ids Sample.env (Sample.scripted Sample.existing)
    (Sample.post (Some "s3cret") Sample.doe_object) 0
  = ([], {| status := 400; body_of := SafeParseFailure |}, 0).
Proof.
  refine (malformed_payload_rejected Sample.has_at Sample.ids Sample.env
            (Sample.scripted Sample.existing)
            (Sample.post (Some "s3cret") Sample.doe_object) 0
            eq_refl eq_refl eq_refl (or_introl _)).
  intros items. discriminate.
Defined.

(** ** E-mail addresses that reach the store *)

Lemma head_filter_elem {E} (p : E -> bool) (entries : list E) (e : E) :
  head (List.filter p entries) = Some e → e ∈ entries ∧ p e = true.
Proof.
  induction entries as [|b entries IH]; simpl; [done|].
  destruct (p b) eqn:Hb; simpl.
  - intros [= ->]. split; [by left|done].
  - intros He. destruct (IH He). split; [by right|done].
Qed.

Section Emails.

Variable is_email : string -> bool.

Lemma emailSchema_checks (item : json) (e : Email.t) :
  emailSchema is_email (Some item) = Some e → is_email (Email.email e) = true.
Proof.
  destruct item as [| | | | |eo]; try done. unfold emailSchema, z_object, z_string_email.
  destruct (z_string (field eo "email")) as [address|]; simpl; [|done].
  destruct (is_email address) eqn:Hcheck; simpl; [|done].
  destruct (z_string (field eo "label")); simpl; [|done].
  by intros [= <-].
Qed.

Lemma contactSchema_emails (o : list (string * json)) (c : Contact) :
  contactSchema is_email (Some (JObject o)) = Some c →
  z_optional (z_array (emailSchema is_email)) (field o "emails") = Some (emails c).
Proof.
  unfold contactSchema, z_object. intros Hc.
  destruct (z_optional z_string (field o "firstName")); simpl in Hc; [|done].
  destruct (z_optional z_string (field o "organization")); simpl in Hc; [|done].
  destruct (z_string (field o "lastName")); simpl in Hc; [|done].
  destruct (z_optional (z_array (emailSchema is_email)) (field o "emails")) as [es|];
    simpl in Hc; [|done].
  repeat match type of Hc with
         | (?m ≫= _) = Some _ => destruct m; simpl in Hc; [|discriminate Hc]
         end.
  by injection Hc as <-.
Qed.

Lemma validated_emails (body : json) (valid : list Contact) (c : Contact)
    (es : list Email.t) (e : Email.t) :
  schema is_email (Some body) = Some valid → c ∈ valid →
  emails c = Some es → e ∈ es → is_email (Email.email e) = true.
Proof.
  intros Hvalid Hc Hes He.
  destruct (z_array_accepts _ _ _ _ Hvalid Hc) as [item Hitem].
  destruct item as [| | | | |o]; try discriminate Hitem.
  apply contactSchema_emails in Hitem. rewrite Hes in Hitem.
  unfold z_optional in Hitem. destruct (field o "emails") as [v|]; [|done].
  destruct (z_array (emailSchema is_email) (Some v)) as [es'|] eqn:Hv; [|done].
  injection Hitem as ->.
  destruct (z_array_accepts _ _ _ _ Hv He) as [entry Hentry].
  by eapply emailSchema_checks.
Qed.

(** X8. Validation establishes that every e-mail address of every contact
    of the payload passes the e-mail syntax check, and the handler keeps
    it: an "Email (Work)" or "Email (Home)" field of the property set built
    from a validated contact always holds an address that passed the
    check. *)
Theorem emails_sent_passed_the_check (body : json) (valid : list Contact) (c : Contact) :
  schema is_email (Some body) = Some valid → c ∈ valid →
  (∀ es e, emails c = Some es → e ∈ es → is_email (Email.email e) = true)
  ∧ (∀ oid address,
        properties c oid !! "Email (Work)" = Some (PEmail address)
        ∨ properties c oid !! "Email (Home)" = Some (PEmail address) →
        is_email address = true).
Proof.
  intros Hvalid Hc. split; [by intros; eapply validated_emails|].
  assert (∀ l address,
            Email.email <$> filter0 (fun e => String.eqb (Email.label e) l) (emails c)
            = Some address → is_email address = true) as Hselected.
  { intros l address. unfold filter0. destruct (emails c) as [es|] eqn:Hes; [|done].
    simpl. destruct (head (List.filter _ es)) as [e|] eqn:Hhead; [|done].
    intros [= <-]. apply head_filter_elem in Hhead as [He _].
    by eapply validated_emails. }
  intros oid address [Hfield|Hfield]; revert Hfield; lookup_properties.
  - unfold nonempty. destruct (workEmail c) as [a|] eqn:Hwork; [|done]. simpl.
    destruct (decide (a = "")); [done|]. intros [= <-]. by eapply Hselected.
  - unfold nonempty. destruct (homeEmail c) as [a|] eqn:Hhome; [|done]. simpl.
    destruct (decide (a = "")); [done|]. intros [= <-]. by eapply Hselected.
Qed.

End Emails.

Lemma emails_sent_passed_the_check_witness :
  Sample.has_at "jane@acme.test" = true.
Proof.
  refine (proj2 (emails_sent_passed_the_check Sample.has_at Sample.jane_json
                   [Sample.jane] Sample.jane eq_refl _) None "jane@acme.test"
            (or_introl _)).
  - by left.
  - vm_compute. reflexivity.
Defined.

(** ** The state sub-field *)

Lemma same_but_state_label (l : string) (x y : option Address.t) :
  same_but_state x y → address_label_is l x = address_label_is l y.
Proof.
  destruct x as [a|], y as [b|]; simpl; try done.
  intros (_ & _ & _ & _ & Hlabel). unfold address_label_is. simpl. by rewrite Hlabel.
Qed.

Lemma same_but_state_selected (l : string) (xs ys : list (option Address.t)) :
  Forall2 same_but_state xs ys →
  same_but_state (mjoin (head (List.filter (address_label_is l) xs)))
                 (mjoin (head (List.filter (address_label_is l) ys))).
Proof.
  induction 1 as [|x y xs ys Hxy _ IH]; simpl; [done|].
  rewrite <- (same_but_state_label l x y Hxy).
  by destruct (address_label_is l x).
Qed.

Lemma same_but_state_string (x y : option Address.t) :
  same_but_state x y → addressString x = addressString y.
Proof.
  destruct x as [a|], y as [b|]; simpl; try done.
  intros (Hcity & Hstreet & Hcountry & Hzip & _). unfold addressString. simpl.
  by rewrite Hcity, Hstreet, Hcountry, Hzip.
Qed.

Lemma same_but_state_part (key : string) (x y : option Address.t) :
  same_but_state x y →
  js_and x (fun _ => {[ key := PRichText (addressString x) ]})
  = js_and y (fun _ => {[ key := PRichText (addressString y) ]}).
Proof.
  intros Hxy. rewrite (same_but_state_string x y Hxy).
  by destruct x as [a|], y as [b|].
Qed.

(** X9. The state of an address is validated but never used: replacing the
    addresses array by one whose elements differ from the original ones at
    most in their state changes neither the property set nor, for any
    store, the calls, the result and the final state of the handler's
    run. *)
Theorem address_state_is_ignored (ids : DatabaseIds) {S} (notion : Client S)
    (c : Contact) (rest : list Contact) (xs ys : list (option Address.t)) (s : S) :
  addresses c = Some xs →
  Forall2 same_but_state xs ys →
  (∀ oid, properties (with_addresses c (Some ys)) oid = properties c oid)
  ∧ run notion (handler ids (with_addresses c (Some ys) :: rest)) s
    = run notion (handler ids (c :: rest)) s.
Proof.
  intros Hxs Hrel.
  assert (∀ oid, properties (with_addresses c (Some ys)) oid = properties c oid) as Hprops.
  { intros oid. unfold properties, workAddress, homeAddress.
    assert (same_but_state (workAddressData (with_addresses c (Some ys)))
                           (workAddressData c)) as Hwork.
    { unfold workAddressData. rewrite Hxs. simpl.
      apply same_but_state_selected. clear -Hrel.
      induction Hrel as [|x y ? ? Hxy _ IH]; constructor; [|done].
      destruct x, y; simpl in *; try done. by destruct Hxy as (-> & -> & -> & -> & ->). }
    assert (same_but_state (homeAddressData (with_addresses c (Some ys)))
                           (homeAddressData c)) as Hhome.
    { unfold homeAddressData. rewrite Hxs. simpl.
      apply same_but_state_selected. clear -Hrel.
      induction Hrel as [|x y ? ? Hxy _ IH]; constructor; [|done].
      destruct x, y; simpl in *; try done. by destruct Hxy as (-> & -> & -> & -> & ->). }
    by rewrite (same_but_state_part "Address (Work)" _ _ Hwork),
               (same_but_state_part "Address (Home)" _ _ Hhome). }
  split; [done|].
  rewrite !run_handler_cons.
  change (organizationId ids (with_addresses c (Some ys))) with (organizationId ids c).
  destruct (run notion (organizationId ids c) s) as [[calls [e|oid]] s0]; [done|].
  by rewrite !run_upsert, Hprops.
Qed.

Lemma address_state_is_ignored_witness :
  properties (with_addresses Sample.jane (Some [Some Sample.paris_idf])) None
  = properties Sample.jane None.
Proof.
  refine (proj1 (address_state_is_ignored Sample.ids (Sample.scripted Sample.existing)
                   Sample.jane [] [Some Sample.paris] [Some Sample.paris_idf] 0
                   eq_refl _) None).
  repeat constructor.
Defined.

(** ** From the payload to the fields *)

Lemma filter0_first {E} (p : E -> bool) (arr : option (list E))
    (before : list E) (e : E) (after : list E) :
  arr = Some (before ++ e :: after) →
  p e = true →
  (∀ e', e' ∈ before → p e' = false) →
  filter0 p arr = Some e.
Proof. intros -> He Hbefore. unfold filter0. simpl. by apply head_filter_first. Qed.

Lemma nonempty_id (s : string) : s ≠ "" → nonempty (Some s) = Some s.
Proof. intros Hs. by apply nonempty_Some. Qed.

Lemma eqb_other (s t : string) : s ≠ t → String.eqb s t = false.
Proof. by intros; apply String.eqb_neq. Qed.

(** X10. The first e-mail labelled "Work" (or "Home") of the payload, when
    its address is not empty, is the value of the "Email (Work)" (or "Email
    (Home)") field; the first phone labelled "Main" (or "Work"), when its
    number is not empty, is the value of the "Main" (or "Work") field; the
    first phone labelled "iPhone" or "Mobile", when its number is not empty,
    is the value of the "Mobile" field; and the first phone labelled "Home"
    is the value of the "Home" field even when its number is empty. *)
Theorem first_labelled_entries_reach_the_fields (c : Contact) (oid : option string) :
  (∀ before e after,
      emails c = Some (before ++ e :: after) →
      (∀ e', e' ∈ before → Email.label e' ≠ Email.label e) →
      Email.email e ≠ "" →
      (Email.label e = "Work" →
         properties c oid !! "Email (Work)" = Some (PEmail (Email.email e)))
      ∧ (Email.label e = "Home" →
         properties c oid !! "Email (Home)" = Some (PEmail (Email.email e))))
  ∧ (∀ before p after,
      phones c = Some (before ++ p :: after) →
      (∀ p', p' ∈ before → Phone.label p' ≠ Phone.label p) →
      (Phone.label p = "Main" → Phone.number p ≠ "" →
         properties c oid !! "Main" = Some (PPhoneNumber (Phone.number p)))
      ∧ (Phone.label p = "Work" → Phone.number p ≠ "" →
         properties c oid !! "Work" = Some (PPhoneNumber (Phone.number p)))
      ∧ (Phone.label p = "Home" →
         properties c oid !! "Home" = Some (PPhoneNumber (Phone.number p))))
  ∧ (∀ before p after,
      phones c = Some (before ++ p :: after) →
      Phone.label p ∈ ["iPhone"; "Mobile"] →
      (∀ p', p' ∈ before → Phone.label p' ∉ ["iPhone"; "Mobile"]) →
      Phone.number p ≠ "" →
      properties c oid !! "Mobile" = Some (PPhoneNumber (Phone.number p))).
Proof.
  split; [|split].
  - intros before e after Hemails Hbefore Hne.
    split; intros Hlabel; lookup_properties;
      [unfold workEmail|unfold homeEmail];
      (rewrite (filter0_first _ _ before e after Hemails);
       [cbn [fmap option_fmap option_map]; by rewrite nonempty_id
       |by rewrite Hlabel
       |intros e' He'; apply eqb_other; rewrite <- Hlabel; by apply Hbefore]).
  - intros before p after Hphones Hbefore.
    split; [|split]; intros Hlabel; [intros Hne|intros Hne|]; lookup_properties;
      [unfold mainPhone|unfold workPhone|unfold homePhone];
      (rewrite (filter0_first _ _ before p after Hphones);
       [cbn [fmap option_fmap option_map]; by rewrite ?nonempty_id
       |by rewrite Hlabel
       |intros p' Hp'; apply eqb_other; rewrite <- Hlabel; by apply Hbefore]).
  - intros before p after Hphones Hlabel Hbefore Hne. lookup_properties.
    unfold mobilePhone.
    rewrite (filter0_first _ _ before p after Hphones).
    + cbn [fmap option_fmap option_map]. by rewrite nonempty_id.
    + by apply mobile_labels.
    + intros p' Hp'. specialize (Hbefore p' Hp').
      destruct (existsb _ _) eqn:Hex; [|done]. by apply mobile_labels in Hex.
Qed.

Lemma first_labelled_entries_reach_the_fields_witness :
  properties Sample.jane None !! "Email (Home)" = Some (PEmail "jane@home.test").
Proof.
  refine (proj2 (proj1 (first_labelled_entries_reach_the_fields Sample.jane None)
                   [ {| Email.email := "jane@acme.test"; Email.label := "Work" |} ]
                   {| Email.email := "jane@home.test"; Email.label := "Home" |} []
                   eq_refl _ _) eq_refl).
  - intros e' He'. apply list_elem_of_singleton in He' as ->. discriminate.
  - discriminate.
Defined.

(** ** The smallest valid payload *)

Section Minimal.

Variable is_email : string -> bool.
Variable ids : DatabaseIds.
Variable env : Bindings.
Context {S : Type} (notion : Client S).

Lemma contactSchema_only_last_name (o : list (string * json)) (last : string) :
  field o "lastName" = Some (JString last) →
  (∀ k, k ∈ optional_keys → field o k = None) →
  contactSchema is_email (Some (JObject o)) = Some (only_last_name last).
Proof.
  intros Hlast Hnone. unfold contactSchema, z_object.
  rewrite Hlast.
  rewrite !Hnone by (unfold optional_keys; repeat constructor).
  reflexivity.
Qed.

Lemma properties_only_last_name (last : string) (oid : option string) :
  properties (only_last_name last) oid
  = <[ "Source" := PSelect "iOS Contact" ]> {[ "Last Name" := PTitle last ]}.
Proof.
  apply map_eq. intros k. unfold properties, object_literal, assign. simpl.
  rewrite !lookup_union, !lookup_empty, lookup_insert, !lookup_singleton.
  rewrite ?option_union_None_r, ?option_union_None_l.
  destruct (decide ("Source" = k)) as [<-|]; [done|].
  by destruct (decide ("Last Name" = k)).
Qed.

(** X11. The last name is the only field a contact needs.  An authorized
    POST /ios-contact whose body is an array of one object with a string
    lastName and none of the other keys of the schema (keys outside the
    schema are tolerated) validates; no organization is looked up; the
    contact lookup asks for that last name and the empty first name; and
    when the lookup finds nothing, a contact is created whose property set
    is exactly the Last Name title and the Source select "iOS Contact", and
    the response is 201 with an undefined firstName. *)
Theorem minimal_payload_creates_contact (req : Request) (o : list (string * json))
    (last : string) (s s1 : S) (created : Page.t) (s2 : S) :
  method req = POST →
  pathname req = "/ios-contact" →
  authorization req = Some (PASSWORD env) →
  body req = JArray [JObject o] →
  field o "lastName" = Some (JString last) →
  (∀ k, k ∈ optional_keys → field o k = None) →
  let lookup :=
    And [ title_equals "Last Name" last; rich_text_equals "First Name" "" ] in
  let props : gmap string PropertyValue :=
    <[ "Source" := PSelect "iOS Contact" ]> {[ "Last Name" := PTitle last ]} in
  on_query notion (contacts ids) lookup s = (inr [], s1) →
  on_create notion (contacts ids) props s1 = (inr created, s2) →
  fetch is_email ids env notion req s
  = ([ Query (contacts ids) lookup; Create (contacts ids) props ],
     {| status := 201;
        body_of := Json [ ("message", Some "Successfully created contact");
                          ("pageId", Some (Page.id created));
                          ("firstName", None);
                          ("lastName", Some last) ] |},
     s2).
Proof.
  intros Hm Hp Ha Hbody Hlast Hnone lookup props Hq Hc.
  assert (schema is_email (Some (body req)) = Some [only_last_name last]) as Hvalid.
  { rewrite Hbody. unfold schema, z_array. apply mapM_Some_2.
    repeat constructor. by apply contactSchema_only_last_name. }
  rewrite (fetch_ios_contact is_email ids env notion req _ s Hm Hp Ha Hvalid).
  assert (run notion (organizationId ids (only_last_name last)) s = ([], inr None, s))
    as Horg by by rewrite run_organizationId.
  rewrite run_handler_cons, Horg, run_upsert, properties_only_last_name.
  change (contact_filter (only_last_name last)) with lookup.
  fold props. rewrite Hq. simpl. by rewrite Hc.
Qed.

End Minimal.

Lemma minimal_payload_creates_contact_witness :
  fetch Sample.has_at Sample.ids Sample.env (Sample.scripted (fun _ => []))
    (Sample.post (Some "s3cret") (JArray [Sample.doe_object])) 0
  = ([ Query "contacts-db"
         (And [ title_equals "Last Name" "Doe"; rich_text_equals "First Name" "" ]);
       Create "contacts-db"
         (<[ "Source" := PSelect "iOS Contact" ]> {[ "Last Name" := PTitle "Doe" ]}) ],
     {| status := 201;
        body_of := Json [ ("message", Some "Successfully created contact");
                          ("pageId", Some "new-0");
                          ("firstName", None);
                          ("lastName", Some "Doe") ] |},
     1).
Proof.
  refine (minimal_payload_creates_contact Sample.has_at Sample.ids Sample.env
            (Sample.scripted (fun _ => []))
            (Sample.post (Some "s3cret") (JArray [Sample.doe_object]))
            [ ("lastName", JString "Doe") ] "Doe" 0 0 {| Page.id := "new-0" |} 1
            eq_refl eq_refl eq_refl eq_refl eq_refl _ eq_refl eq_refl).
  intros k Hk. unfold optional_keys in Hk.
  repeat (apply elem_of_cons in Hk as [-> | Hk]; [reflexivity|]).
  by apply elem_of_nil in Hk.
Defined.
